(** * redisutil: the node model, the node collection and the topology decoders

    A shallow embedding of [admin.go] and [node.go] of the package [redis]
    (module github.com/kubernetes-app/redisutil), together with the
    properties of the node model, of the collection queries and of the two
    text decoders.

    Conventions of the embedding.
    - A Go [string] is a byte sequence: [string] (a list of 8-bit [ascii]).
    - [Nodes] is [[]*Node]: a [list Node].  The record stands for the node a
      pointer refers to; no property below depends on pointer identity.
    - A method that writes through its receiver returns the updated
      receiver.  [SortNodes] and [SortByFunc] reorder the backing array of
      the receiver slice: they return the Go return value paired with the
      contents of the receiver after the call.
    - A Go result [(T, error)] is a pair whose second component is
      [option error] ([None] is [nil]).
    - Functions of the Go standard library and of packages outside the two
      source files ([sort.Sort], [net.SplitHostPort], [strconv.ParseInt],
      [utils.ParseRedisMemConf], [DecodeSlotRange], the redis client) are
      section variables; [strings.Split] is written out, every call site
      passing a one-byte separator.
    - [klog] calls append to an explicit log. *)

From Stdlib Require Import ZArith NArith Ascii String DecimalString OrderedTypeEx.
From stdpp Require Import base option list sorting gmap strings.

Local Open Scope Z_scope.

(** ** Go standard library: strings *)

Module strings.

(** [strings.Split(s, sep)] for a one-byte separator: the substrings
    between the occurrences of [sep]; a string without [sep] gives the
    one-element list [[s]], the empty string gives [[""]]. *)
Fixpoint Split (s : string) (sep : ascii) : list string :=
  match s with
  | EmptyString => [EmptyString]
  | String c rest =>
      if Ascii.eqb c sep then EmptyString :: Split rest sep
      else match Split rest sep with
           | [] => [String c EmptyString]
           | w :: ws => String c w :: ws
           end
  end.

(** [strings.ContainsRune] for a one-byte character. *)
Fixpoint Contains (s : string) (c : ascii) : bool :=
  match s with
  | EmptyString => false
  | String d rest => Ascii.eqb d c || Contains rest c
  end.

(** [strings.Cut(s, sep)] for a one-byte separator: the text before the
    first [sep], the text after it, and whether [sep] occurs; without
    [sep] the result is [(s, "", false)]. *)
Fixpoint Cut (s : string) (sep : ascii) : string * string * bool :=
  match s with
  | EmptyString => (EmptyString, EmptyString, false)
  | String c rest =>
      if Ascii.eqb c sep then (EmptyString, rest, true)
      else let '(before, after, found) := Cut rest sep in (String c before, after, found)
  end.

(** [strings.IndexByte] and [strings.LastIndexByte]; [None] is [-1]. *)
Fixpoint IndexByte (s : string) (c : ascii) : option nat :=
  match s with
  | EmptyString => None
  | String d rest => if Ascii.eqb d c then Some 0%nat else S <$> IndexByte rest c
  end.

Fixpoint LastIndexByte (s : string) (c : ascii) : option nat :=
  match s with
  | EmptyString => None
  | String d rest =>
      match LastIndexByte rest c with
      | Some i => Some (S i)
      | None => if Ascii.eqb d c then Some 0%nat else None
      end
  end.

(** The slice [s[i:]]. *)
Definition from (i : nat) (s : string) : string :=
  String.substring i (String.length s - i) s.

End strings.

(** ** Constants ([rediscluster.go]) *)

Definition RedisLinkStateConnected : string := "connected".
Definition RedisLinkStateDisconnected : string := "disconnected".

Definition NodeStatusPFail : string := "fail?".
Definition NodeStatusFail : string := "fail".
Definition NodeStatusHandshake : string := "handshake".
Definition NodeStatusNoAddr : string := "noaddr".
Definition NodeStatusNoFlags : string := "noflags".

Definition DefaultRedisPort : string := "6379".
Definition RedisMasterRole : string := "master".
Definition RedisSlaveRole : string := "slave".

Definition comma : ascii := ","%char.
Definition space : ascii := " "%char.
Definition colon : ascii := ":"%char.
Definition at_sign : ascii := "@"%char.
Definition newline : ascii := "010"%char.

(** ** Errors and log *)

(** [nodeNotFoundedError] is the package-level error value of the lookups;
    [Err] stands for an error made by a collaborator outside the package. *)
Inductive error : Type :=
  | nodeNotFoundedError
  | Err (msg : string).

Definition error_String (e : error) : string :=
  match e with
  | nodeNotFoundedError => "node not founded"
  | Err msg => msg
  end.

(** One [klog] call: [klog.V(v).Infof(format, args...)] or
    [klog.Errorf(format, args...)], the arguments rendered as strings. *)
Inductive LogEntry : Type :=
  | Infof (v : nat) (format : string) (args : list string)
  | Errorf (format : string) (args : list string).

Definition is_Errorf (e : LogEntry) : bool :=
  match e with Errorf _ _ => true | Infof _ _ _ => false end.

(** ** The node model ([node.go]) *)

(** Modelled from the spec: the type [Slot] is declared in a file outside
    the sources; the spec gives it as an integer shard identifier. *)
Definition Slot : Type := N.

(** Modelled from the spec: the two marker records returned by
    [DecodeSlotRange] (slot id and the id of the other node). *)
Record ImportingSlot : Type := { ImportingSlot_SlotID : Slot; FromNodeID : string }.
Record MigratingSlot : Type := { MigratingSlot_SlotID : Slot; ToNodeID : string }.

Record Pod : Type := { Pod_Name : string; Pod_Namespace : string }.

Record Node : Type := mkNode {
  ID : string;
  IP : string;
  Port : string;
  Role : string;
  LinkState : string;
  MasterReferent : string;
  FailStatus : list string;
  PingSent : Z;
  PongRecv : Z;
  ConfigEpoch : Z;
  Slots : list Slot;
  MigratingSlots : gmap Slot string;
  ImportingSlots : gmap Slot string;
  ServerStartTime : option Z;
  NodePod : option Pod
}.

(** [Nodes], the slice type [[]*Node]. *)
Abbreviation Nodes := (list Node) (only parsing).

(** The zero value [&Node{}]. *)
Definition zeroNode : Node :=
  {| ID := ""; IP := ""; Port := ""; Role := ""; LinkState := "";
     MasterReferent := ""; FailStatus := []; PingSent := 0; PongRecv := 0;
     ConfigEpoch := 0; Slots := []; MigratingSlots := ∅; ImportingSlots := ∅;
     ServerStartTime := None; NodePod := None |}.

Definition set_ID (v : string) (n : Node) : Node :=
  mkNode v (IP n) (Port n) (Role n) (LinkState n) (MasterReferent n)
    (FailStatus n) (PingSent n) (PongRecv n) (ConfigEpoch n) (Slots n)
    (MigratingSlots n) (ImportingSlots n) (ServerStartTime n) (NodePod n).
Definition set_IP (v : string) (n : Node) : Node :=
  mkNode (ID n) v (Port n) (Role n) (LinkState n) (MasterReferent n)
    (FailStatus n) (PingSent n) (PongRecv n) (ConfigEpoch n) (Slots n)
    (MigratingSlots n) (ImportingSlots n) (ServerStartTime n) (NodePod n).
Definition set_Port (v : string) (n : Node) : Node :=
  mkNode (ID n) (IP n) v (Role n) (LinkState n) (MasterReferent n)
    (FailStatus n) (PingSent n) (PongRecv n) (ConfigEpoch n) (Slots n)
    (MigratingSlots n) (ImportingSlots n) (ServerStartTime n) (NodePod n).
Definition set_Role (v : string) (n : Node) : Node :=
  mkNode (ID n) (IP n) (Port n) v (LinkState n) (MasterReferent n)
    (FailStatus n) (PingSent n) (PongRecv n) (ConfigEpoch n) (Slots n)
    (MigratingSlots n) (ImportingSlots n) (ServerStartTime n) (NodePod n).
Definition set_LinkState (v : string) (n : Node) : Node :=
  mkNode (ID n) (IP n) (Port n) (Role n) v (MasterReferent n)
    (FailStatus n) (PingSent n) (PongRecv n) (ConfigEpoch n) (Slots n)
    (MigratingSlots n) (ImportingSlots n) (ServerStartTime n) (NodePod n).
Definition set_MasterReferent (v : string) (n : Node) : Node :=
  mkNode (ID n) (IP n) (Port n) (Role n) (LinkState n) v
    (FailStatus n) (PingSent n) (PongRecv n) (ConfigEpoch n) (Slots n)
    (MigratingSlots n) (ImportingSlots n) (ServerStartTime n) (NodePod n).
Definition set_FailStatus (v : list string) (n : Node) : Node :=
  mkNode (ID n) (IP n) (Port n) (Role n) (LinkState n) (MasterReferent n)
    v (PingSent n) (PongRecv n) (ConfigEpoch n) (Slots n)
    (MigratingSlots n) (ImportingSlots n) (ServerStartTime n) (NodePod n).
Definition set_PingSent (v : Z) (n : Node) : Node :=
  mkNode (ID n) (IP n) (Port n) (Role n) (LinkState n) (MasterReferent n)
    (FailStatus n) v (PongRecv n) (ConfigEpoch n) (Slots n)
    (MigratingSlots n) (ImportingSlots n) (ServerStartTime n) (NodePod n).
Definition set_PongRecv (v : Z) (n : Node) : Node :=
  mkNode (ID n) (IP n) (Port n) (Role n) (LinkState n) (MasterReferent n)
    (FailStatus n) (PingSent n) v (ConfigEpoch n) (Slots n)
    (MigratingSlots n) (ImportingSlots n) (ServerStartTime n) (NodePod n).
Definition set_ConfigEpoch (v : Z) (n : Node) : Node :=
  mkNode (ID n) (IP n) (Port n) (Role n) (LinkState n) (MasterReferent n)
    (FailStatus n) (PingSent n) (PongRecv n) v (Slots n)
    (MigratingSlots n) (ImportingSlots n) (ServerStartTime n) (NodePod n).
Definition set_Slots (v : list Slot) (n : Node) : Node :=
  mkNode (ID n) (IP n) (Port n) (Role n) (LinkState n) (MasterReferent n)
    (FailStatus n) (PingSent n) (PongRecv n) (ConfigEpoch n) v
    (MigratingSlots n) (ImportingSlots n) (ServerStartTime n) (NodePod n).
Definition set_MigratingSlots (v : gmap Slot string) (n : Node) : Node :=
  mkNode (ID n) (IP n) (Port n) (Role n) (LinkState n) (MasterReferent n)
    (FailStatus n) (PingSent n) (PongRecv n) (ConfigEpoch n) (Slots n)
    v (ImportingSlots n) (ServerStartTime n) (NodePod n).
Definition set_ImportingSlots (v : gmap Slot string) (n : Node) : Node :=
  mkNode (ID n) (IP n) (Port n) (Role n) (LinkState n) (MasterReferent n)
    (FailStatus n) (PingSent n) (PongRecv n) (ConfigEpoch n) (Slots n)
    (MigratingSlots n) v (ServerStartTime n) (NodePod n).
Definition set_NodePod (v : option Pod) (n : Node) : Node :=
  mkNode (ID n) (IP n) (Port n) (Role n) (LinkState n) (MasterReferent n)
    (FailStatus n) (PingSent n) (PongRecv n) (ConfigEpoch n) (Slots n)
    (MigratingSlots n) (ImportingSlots n) (ServerStartTime n) v.

(** [NewDefaultNode]: every field at its zero value but the port and the
    three empty containers. *)
Definition NewDefaultNode : Node :=
  {| ID := ""; IP := ""; Port := DefaultRedisPort; Role := ""; LinkState := "";
     MasterReferent := ""; FailStatus := []; PingSent := 0; PongRecv := 0;
     ConfigEpoch := 0; Slots := []; MigratingSlots := ∅; ImportingSlots := ∅;
     ServerStartTime := None; NodePod := None |}.

(** [NewNode(id, ip, pod)]. *)
Definition NewNode (id ip : string) (pod : option Pod) : Node :=
  set_NodePod pod (set_IP ip (set_ID id NewDefaultNode)).

(** [SetRole]: the role is reset, then every comma-separated value is
    examined in order; [master] and [slave] overwrite the role. *)
Definition SetRole_case (n : Node) (val : string) : Node :=
  if String.eqb val RedisMasterRole then set_Role RedisMasterRole n
  else if String.eqb val RedisSlaveRole then set_Role RedisSlaveRole n
  else n.

Definition SetRole (n : Node) (flags : string) : Node :=
  let n := set_Role "" n in
  let vals := strings.Split flags comma in
  foldl SetRole_case n vals.

(** [GetRole]. *)
Definition GetRole (n : Node) : string :=
  if String.eqb (Role n) RedisMasterRole then RedisMasterRole
  else if String.eqb (Role n) RedisSlaveRole then RedisSlaveRole
  else if negb (String.eqb (MasterReferent n) "") then RedisSlaveRole
  else if (0 <? length (Slots n))%nat then RedisMasterRole
  else "none".

(** [SetLinkStatus]: the state is reset, then the whole argument is
    compared with the two link states. *)
Definition SetLinkStatus (n : Node) (status : string) : Node :=
  let n := set_LinkState "" n in
  if String.eqb status RedisLinkStateConnected then set_LinkState RedisLinkStateConnected n
  else if String.eqb status RedisLinkStateDisconnected then set_LinkState RedisLinkStateDisconnected n
  else n.

(** [SetFailureStatus]: the list is reset, then every comma-separated value
    that is one of the five failure flags is appended. *)
Definition SetFailureStatus_case (n : Node) (val : string) : Node :=
  if String.eqb val NodeStatusFail then set_FailStatus (FailStatus n ++ [NodeStatusFail]) n
  else if String.eqb val NodeStatusPFail then set_FailStatus (FailStatus n ++ [NodeStatusPFail]) n
  else if String.eqb val NodeStatusHandshake then set_FailStatus (FailStatus n ++ [NodeStatusHandshake]) n
  else if String.eqb val NodeStatusNoAddr then set_FailStatus (FailStatus n ++ [NodeStatusNoAddr]) n
  else if String.eqb val NodeStatusNoFlags then set_FailStatus (FailStatus n ++ [NodeStatusNoFlags]) n
  else n.

Definition SetFailureStatus (n : Node) (flags : string) : Node :=
  let n := set_FailStatus [] n in
  let vals := strings.Split flags comma in
  foldl SetFailureStatus_case n vals.

(** [SetReferentMaster]. *)
Definition SetReferentMaster (n : Node) (ref : string) : Node :=
  let n := set_MasterReferent "" n in
  if String.eqb ref "-" then n else set_MasterReferent ref n.

(** [TotalSlots]. *)
Definition TotalSlots (n : Node) : nat := length (Slots n).

(** [HasStatus]. *)
Fixpoint HasStatus_loop (statuses : list string) (flag : string) : bool :=
  match statuses with
  | [] => false
  | status :: rest => if String.eqb status flag then true else HasStatus_loop rest flag
  end.

Definition HasStatus (n : Node) (flag : string) : bool :=
  HasStatus_loop (FailStatus n) flag.

Definition IsMasterWithNoSlot (n : Node) : bool :=
  if String.eqb (GetRole n) RedisMasterRole && (TotalSlots n =? 0)%nat then true else false.

Definition IsMasterWithSlot (n : Node) : bool :=
  if String.eqb (GetRole n) RedisMasterRole && (0 <? TotalSlots n)%nat then true else false.

Definition IsSlave (n : Node) : bool := String.eqb (GetRole n) RedisSlaveRole.

(** ** The node collection ([node.go]) *)

(** [FindNodeFunc]. *)
Definition FindNodeFunc : Type := Node → bool.

(** [GetNodesByFunc]: the matching nodes in order; the error is
    [nodeNotFoundedError] when the collected slice is empty. *)
Definition GetNodesByFunc (n : Nodes) (f : FindNodeFunc) : Nodes * option error :=
  let nodes := foldl (λ nodes node, if f node then nodes ++ [node] else nodes) [] n in
  if (length nodes =? 0)%nat then (nodes, Some nodeNotFoundedError)
  else (nodes, None).

(** [GetNodeByID]: the first node with the given id; [(nil, err)] is
    [(None, Some err)]. *)
Fixpoint GetNodeByID (n : Nodes) (id : string) : option Node * option error :=
  match n with
  | [] => (None, Some nodeNotFoundedError)
  | node :: rest =>
      if String.eqb (ID node) id then (Some node, None) else GetNodeByID rest id
  end.

(** [GetNodeByMasterID]. *)
Fixpoint GetNodeByMasterID (n : Nodes) (id : string) : option Node * option error :=
  match n with
  | [] => (None, Some nodeNotFoundedError)
  | node :: rest =>
      if String.eqb (MasterReferent node) id then (Some node, None)
      else GetNodeByMasterID rest id
  end.

(** [net.JoinHostPort]: a host with a colon (a literal IPv6 address) is put
    in brackets. *)
Definition JoinHostPort (host port : string) : string :=
  if strings.Contains host colon then "[" +:+ host +:+ "]:" +:+ port
  else host +:+ ":" +:+ port.

(** [IPPort]. *)
Definition IPPort (n : Node) : string := JoinHostPort (IP n) (Port n).

(** [GetNodeByAddr]. *)
Fixpoint GetNodeByAddr (n : Nodes) (addr : string) : option Node * option error :=
  match n with
  | [] => (None, Some nodeNotFoundedError)
  | node :: rest =>
      if String.eqb (JoinHostPort (IP node) (Port node)) addr then (Some node, None)
      else GetNodeByAddr rest addr
  end.

(** [CountByFunc]. *)
Definition CountByFunc (n : Nodes) (fn : Node → bool) : Z :=
  foldl (λ result v, if fn v then result + 1 else result) 0 n.

(** [FilterByFunc]. *)
Definition FilterByFunc (n : Nodes) (fn : Node → bool) : Nodes :=
  foldl (λ newSlice node, if fn node then newSlice ++ [node] else newSlice) [] n.

(** [LessByID] and [MoreByID]: byte-wise comparison of the ids. *)
Definition LessByID (n1 n2 : Node) : bool := String.ltb (ID n1) (ID n2).
Definition MoreByID (n1 n2 : Node) : bool := String.ltb (ID n2) (ID n1).

(** [Nodes.Len], [Nodes.Less] and [Nodes.Swap]; an index out of range
    panics ([None]). *)
Definition Nodes_Len (n : Nodes) : nat := length n.

Definition Nodes_Less (n : Nodes) (i j : nat) : option bool :=
  ni ← n !! i; nj ← n !! j; Some (String.ltb (ID ni) (ID nj)).

Definition Nodes_Swap (n : Nodes) (i j : nat) : option Nodes :=
  ni ← n !! i; nj ← n !! j; Some (<[i:=nj]> (<[j:=ni]> n)).

(** [by] and [nodeSorter] ([by] is written [by_], the field [by] is
    [by_field]). *)
Definition by_ : Type := Node → Node → bool.

Record nodeSorter : Type := { nodes : Nodes; by_field : Node → Node → bool }.

Definition nodeSorter_Len (s : nodeSorter) : nat := length (nodes s).

Definition nodeSorter_Less (s : nodeSorter) (i j : nat) : option bool :=
  ni ← nodes s !! i; nj ← nodes s !! j; Some (by_field s ni nj).

(** What a sorting method gives back: the Go return value and the contents
    of the receiver slice when the call returns. *)
Record SortCall : Type := { returned : Nodes; receiver : Nodes }.

(** [sort.IsSorted]: no element is less than its predecessor. *)
Fixpoint IsSorted (less : Node → Node → bool) (data : Nodes) : bool :=
  match data with
  | [] => true
  | x :: rest =>
      match rest with
      | [] => true
      | y :: _ => negb (less y x) && IsSorted less rest
      end
  end.

Section Sorting.

(** [sort.Sort] reaches the data only through [Len], [Less(i, j)] and
    [Swap(i, j)]: it is given here by the comparison [Less] applies to
    the two elements and by the slice it reorders. *)
Variable sort_Sort : (Node → Node → bool) → Nodes → Nodes.

(** [SortNodes]: [sort.Sort(n); return n]. *)
Definition SortNodes (n : Nodes) : SortCall :=
  let n := sort_Sort (λ ni nj, String.ltb (ID ni) (ID nj)) n in
  {| returned := n; receiver := n |}.

(** [by.Sort]: the slice handed over is reordered. *)
Definition by_Sort (b : by_) (ns : Nodes) : Nodes :=
  let ps := {| nodes := ns; by_field := b |} in
  sort_Sort (by_field ps) (nodes ps).

(** [SortByFunc]: [result] is a copy of [n] taken before the sort;
    [by(less).Sort(n)] then reorders [n], and [result] is returned. *)
Definition SortByFunc (n : Nodes) (less : Node → Node → bool) : SortCall :=
  let result := n in
  let n := by_Sort less n in
  {| returned := result; receiver := n |}.

End Sorting.

(** ** The decoders ([node.go]) *)

Section Decoder.

(** [net.SplitHostPort]: host, port and error. *)
Variable SplitHostPort : string → string * string * option error.
(** [strconv.ParseInt(s, 10, 64)]. *)
Variable ParseInt : string → Z * option error.
(** [DecodeSlotRange]: owned slots, importing marker, migrating marker and
    error. *)
Variable DecodeSlotRange :
  string → list Slot * option ImportingSlot * option MigratingSlot * option error.

(** The loop over [values[8:]]. *)
Definition DecodeNodeInfos_slot (node : Node) (slot : string) : Node :=
  match DecodeSlotRange slot with
  | (s, importing, migrating, None) =>
      let node := set_Slots (Slots node ++ s) node in
      let node :=
        match importing with
        | Some i => set_ImportingSlots
                      (<[ImportingSlot_SlotID i := FromNodeID i]> (ImportingSlots node)) node
        | None => node
        end in
      match migrating with
      | Some m => set_MigratingSlots
                    (<[MigratingSlot_SlotID m := ToNodeID m]> (MigratingSlots node)) node
      | None => node
      end
  | (_, _, _, Some _) => node
  end.

(** The address step of a line. *)
Definition DecodeNodeInfos_addr (node : Node) (value1 : string) : Node * list LogEntry :=
  let ipPort := strings.Split value1 at_sign in
  match SplitHostPort (hd "" ipPort) with
  | (ip, port, None) => (set_Port port (set_IP ip node), [])
  | (_, _, Some err) =>
      (node,
       [Errorf "Error while decoding node info for node '%s', cannot split ip:port ('%s'): %v"
          [ID node; value1; error_String err]])
  end.

Definition DecodeNodeInfos_int (set : Z → Node → Node) (node : Node) (value : string) : Node :=
  match ParseInt value with
  | (i, None) => set i node
  | (_, Some _) => node
  end.

(** The body of the loop over the lines.  The pattern with eight leading
    fields is the test [len(values) < 8] followed by the reads of
    [values[0]] to [values[7]] and of [values[8:]]. *)
Definition DecodeNodeInfos_line (st : Nodes * list LogEntry) (line : string)
  : Nodes * list LogEntry :=
  let '(nodes, log) := st in
  let values := strings.Split line space in
  match values with
  | v0 :: v1 :: v2 :: v3 :: v4 :: v5 :: v6 :: v7 :: slots =>
      let node := NewDefaultNode in
      let node := set_ID v0 node in
      let '(node, logged) := DecodeNodeInfos_addr node v1 in
      let node := SetRole node v2 in
      let node := SetFailureStatus node v2 in
      let node := SetReferentMaster node v3 in
      let node := DecodeNodeInfos_int set_PingSent node v4 in
      let node := DecodeNodeInfos_int set_PongRecv node v5 in
      let node := DecodeNodeInfos_int set_ConfigEpoch node v6 in
      let node := SetLinkStatus node v7 in
      let node := foldl DecodeNodeInfos_slot node slots in
      (nodes ++ [node], log ++ logged)
  | _ =>
      (nodes, log ++ [Infof 7 "Not enough values in line split, ignoring line: '%s'" [line]])
  end.

(** [DecodeNodeInfos]: the nodes, and what was logged. *)
Definition DecodeNodeInfos (input : string) : Nodes * list LogEntry :=
  let lines := strings.Split input newline in
  foldl DecodeNodeInfos_line ([], []) lines.

(** What a line gives when the address step has set nothing: the rest of
    the body of the loop, run on the default node with the id. *)
Definition decoded_without_address (v0 v2 v3 v4 v5 v6 v7 : string) (slots : list string) : Node :=
  let node := set_ID v0 NewDefaultNode in
  let node := SetRole node v2 in
  let node := SetFailureStatus node v2 in
  let node := SetReferentMaster node v3 in
  let node := DecodeNodeInfos_int set_PingSent node v4 in
  let node := DecodeNodeInfos_int set_PongRecv node v5 in
  let node := DecodeNodeInfos_int set_ConfigEpoch node v6 in
  let node := SetLinkStatus node v7 in
  foldl DecodeNodeInfos_slot node slots.

End Decoder.

(** The body of the loop of [DecodeClusterInfos]: [values[0]] and
    [values[1]] of a line with at least two fields. *)
Definition DecodeClusterInfos_line (st : gmap string string * list LogEntry) (line : string)
  : gmap string string * list LogEntry :=
  let '(clusterInfo, log) := st in
  let values := strings.Split line colon in
  match values with
  | v0 :: v1 :: _ => (<[v0 := v1]> clusterInfo, log)
  | _ =>
      (clusterInfo, log ++ [Infof 2 "Not enough values in line split, ignoring line: '%s'" [line]])
  end.

(** [DecodeClusterInfos]: the mapping, and what was logged. *)
Definition DecodeClusterInfos (input : string) : gmap string string * list LogEntry :=
  foldl DecodeClusterInfos_line (∅, []) (strings.Split input newline).

(** ** The admin façade ([admin.go]) *)

(** [parseConfigMap]: the keys whose values are memory sizes. *)
Definition parseConfigMap : gmap string Z :=
  list_to_map
    [("maxmemory", 0); ("proto-max-bulk-len", 0); ("client-query-buffer-limit", 0);
     ("repl-backlog-size", 0); ("auto-aof-rewrite-min-size", 0);
     ("active-defrag-ignore-bytes", 0); ("hash-max-ziplist-entries", 0);
     ("hash-max-ziplist-value", 0); ("stream-node-max-bytes", 0);
     ("set-max-intset-entries", 0); ("zset-max-ziplist-entries", 0);
     ("zset-max-ziplist-value", 0); ("hll-sparse-max-bytes", 0)].

(** A cluster member behind a [*redis.Client]: its address and the
    [CONFIG SET] commands issued to it so far, oldest first. *)
Record Client : Type := { Addr : string; sent : list (string * string) }.

(** What running the callback on one member leaves behind. *)
Record Outcome : Type := { client : Client; logged : list LogEntry; err : option error }.

Section Admin.

(** [utils.ParseRedisMemConf]: the byte count as a string, and the error. *)
Variable ParseRedisMemConf : string → string * option error.
(** The error, if any, of a [CONFIG SET key value] on a member. *)
Variable ConfigSet_Err : Client → string → string → option error.

(** [master.ConfigSet(ctx, key, value).Err()]. *)
Definition ConfigSet (master : Client) (key value : string) : Client * option error :=
  ({| Addr := Addr master; sent := sent master ++ [(key, value)] |},
   ConfigSet_Err master key value).

(** The loop [for key, value := range newConfig], over the pairs in the
    order the range yields them.  Inside the [if] the short declaration
    [value, err := utils.ParseRedisMemConf(value)] makes a new [value]
    whose scope ends with the [if] block ([value_inner]); the call of
    [ConfigSet] after the block reads the [value] of the range. *)
Fixpoint SetRedisConfig_range (kvs : list (string * string)) (master : Client)
    (log : list LogEntry) : Outcome :=
  match kvs with
  | [] => {| client := master; logged := log; err := None |}
  | (key, value) :: rest =>
      let skipped :=
        match parseConfigMap !! key with
        | Some _ =>
            let '(value_inner, err) := ParseRedisMemConf value in
            match err with
            | Some e =>
                Some (Errorf "redis config format err, key: %s, value: %s, err: %v"
                        [key; value_inner; error_String e])
            | None => None
            end
        | None => None
        end in
      match skipped with
      | Some entry => SetRedisConfig_range rest master (log ++ [entry])
      | None =>
          match ConfigSet master key value with
          | (master, Some e) => {| client := master; logged := log; err := Some e |}
          | (master, None) => SetRedisConfig_range rest master log
          end
      end
  end.

(** The pairs the loop passes over: a key of [parseConfigMap] whose value
    [ParseRedisMemConf] refuses. *)
Definition refused (kv : string * string) : bool :=
  match parseConfigMap !! kv.1 with
  | Some _ => bool_decide (is_Some (ParseRedisMemConf kv.2).2)
  | None => false
  end.

Definition refused_entry (kv : string * string) : LogEntry :=
  Errorf "redis config format err, key: %s, value: %s, err: %v"
    [kv.1; (ParseRedisMemConf kv.2).1; from_option error_String "" (ParseRedisMemConf kv.2).2].

(** [SetRedisConfig] and the callback of [SetConfigIfNeed]: the same loop. *)
Definition SetRedisConfig (rc : Client) (newConfig : list (string * string)) : Outcome :=
  SetRedisConfig_range newConfig rc [].

(** [ForEachMaster] runs the callback once on every master and gives back
    one of the errors, if there is any (here the first in list order). *)
Definition ForEachMaster (masters : list Client) (fn : Client → Outcome)
  : list Outcome * option error :=
  let outcomes := fn <$> masters in
  (outcomes, list_find (λ e, is_Some e) (err <$> outcomes) ≫= snd).

(** [SetConfigIfNeed]: the callback ranges over [newConfig] on every
    master; the pairs are taken in one order for all masters. *)
Definition SetConfigIfNeed (masters : list Client) (newConfig : list (string * string))
  : list Outcome * option error :=
  ForEachMaster masters (λ master, SetRedisConfig_range newConfig master []).

End Admin.

(** ** Notions the statements use *)

(** The five failure flags, in the order of the [switch] of
    [SetFailureStatus]. *)
Definition FailureFlags : list string :=
  [NodeStatusFail; NodeStatusPFail; NodeStatusHandshake; NodeStatusNoAddr; NodeStatusNoFlags].

(** The two role flags. *)
Definition RoleFlags : list string := [RedisMasterRole; RedisSlaveRole].

(** The requirement of [sort.Interface] on [Less]: a strict weak ordering. *)
Record StrictWeakOrder (less : Node → Node → bool) : Prop := {
  swo_irrefl : ∀ a, less a a = false;
  swo_trans : ∀ a b c, less a b = true → less b c = true → less a c = true;
  swo_incomparable : ∀ a b c, less a b = false → less b c = false → less a c = false
}.


(** The order [less] asks for: no element is less than one before it. *)
Definition OrderedBy (less : Node → Node → bool) (data : Nodes) : Prop :=
  ∀ i j a b, (i < j)%nat → data !! i = Some a → data !! j = Some b → less b a = false.

(** The relation between an element and a later one in a slice sorted by
    [less]. *)
Definition not_after (less : Node → Node → bool) : relation Node :=
  λ a b, less b a = false.

(** A status line as the status text format describes it: the key is the
    text before the first colon and the value the whole text after it. *)
Definition entry_first_colon (line : string) : option (string * string) :=
  let '(key, rest, found) := strings.Cut line colon in
  if found then Some (key, rest) else None.

(** A status line as the decoder reads it: the key is the text before the
    first colon and the value the text between the first colon and the
    second (the whole rest when there is no second colon). *)
Definition entry_between_colons (line : string) : option (string * string) :=
  let '(key, rest, found) := strings.Cut line colon in
  if found then Some (key, (strings.Cut rest colon).1.1) else None.

(** The mapping a sequence of entries builds, later entries overwriting
    earlier ones with the same key. *)
Definition entries_to_map (entries : list (string * string)) : gmap string string :=
  foldl (λ m kv, <[kv.1 := kv.2]> m) ∅ entries.

(** ** Notions of the further properties *)

(** What the setters keep of their argument: the last role flag, the
    failure flags in order, the link state, the master referent. *)
Definition role_of_flags (flags : string) : string :=
  default "" (last (filter (λ val, val ∈ RoleFlags) (strings.Split flags comma))).

Definition failures_of_flags (flags : string) : list string :=
  filter (λ val, val ∈ FailureFlags) (strings.Split flags comma).

Definition link_of_status (status : string) : string :=
  if bool_decide (status ∈ [RedisLinkStateConnected; RedisLinkStateDisconnected])
  then status else "".

Definition referent_of (ref : string) : string :=
  if String.eqb ref "-" then "" else ref.

(** The conjunction of two tests on a node. *)
Definition both (f g : Node → bool) : Node → bool := λ node, f node && g node.

(** Non-increasing ids. *)
Definition NonIncreasingByID (data : Nodes) : Prop :=
  ∀ i j a b, (i ≤ j)%nat → data !! i = Some a → data !! j = Some b →
    String.leb (ID b) (ID a) = true.

Section DecoderNotions.

Variable SplitHostPort : string → string * string * option error.
Variable ParseInt : string → Z * option error.
Variable DecodeSlotRange :
  string → list Slot * option ImportingSlot * option MigratingSlot * option error.

(** Ip and port of an address field: what [net.SplitHostPort] makes of the
    text before the first [@], or the empty ip and the default port. *)
Definition address_of (value1 : string) : string * string :=
  match SplitHostPort (hd "" (strings.Split value1 at_sign)) with
  | (ip, port, None) => (ip, port)
  | (_, _, Some _) => ("", DefaultRedisPort)
  end.

(** The value of a numeric field: zero when it does not parse. *)
Definition int_of (value : string) : Z :=
  match ParseInt value with
  | (i, None) => i
  | (_, Some _) => 0
  end.

(** What an accepted slot token brings: slots, importing and migrating
    marker; a refused token brings nothing. *)
Definition slots_of (slot : string) : list Slot :=
  match DecodeSlotRange slot with
  | (s, _, _, None) => s
  | (_, _, _, Some _) => []
  end.

Definition importing_of (slot : string) : option ImportingSlot :=
  match DecodeSlotRange slot with
  | (_, importing, _, None) => importing
  | (_, _, _, Some _) => None
  end.

Definition migrating_of (slot : string) : option MigratingSlot :=
  match DecodeSlotRange slot with
  | (_, _, migrating, None) => migrating
  | (_, _, _, Some _) => None
  end.

Definition record_importing (m : gmap Slot string) (slot : string) : gmap Slot string :=
  match importing_of slot with
  | Some i => <[ImportingSlot_SlotID i := FromNodeID i]> m
  | None => m
  end.

Definition record_migrating (m : gmap Slot string) (slot : string) : gmap Slot string :=
  match migrating_of slot with
  | Some i => <[MigratingSlot_SlotID i := ToNodeID i]> m
  | None => m
  end.

(** The node of a line, field by field. *)
Definition decoded_node (v0 v1 v2 v3 v4 v5 v6 v7 : string) (slots : list string) : Node :=
  {| ID := v0;
     IP := (address_of v1).1;
     Port := (address_of v1).2;
     Role := role_of_flags v2;
     LinkState := link_of_status v7;
     MasterReferent := referent_of v3;
     FailStatus := failures_of_flags v2;
     PingSent := int_of v4;
     PongRecv := int_of v5;
     ConfigEpoch := int_of v6;
     Slots := slots ≫= slots_of;
     MigratingSlots := foldl record_migrating ∅ slots;
     ImportingSlots := foldl record_importing ∅ slots;
     ServerStartTime := None;
     NodePod := None |}.

(** The lines that give a node: at least eight fields. *)
Definition node_line (line : string) : Prop :=
  (8 ≤ length (strings.Split line space))%nat.

End DecoderNotions.

#[global] Instance node_line_dec (line : string) : Decision (node_line line).
Proof. unfold node_line. apply _. Defined.

(** ** Instances of the collaborators *)

(** Insertion sort, as [sort.Sort] runs it on short slices: every element
    moves left past the elements it is less than. *)
Fixpoint insertionSort_insert (less : Node → Node → bool) (x : Node) (data : Nodes) : Nodes :=
  match data with
  | [] => [x]
  | y :: rest =>
      if less x y then x :: y :: rest
      else y :: insertionSort_insert less x rest
  end.

Definition insertionSort (less : Node → Node → bool) (data : Nodes) : Nodes :=
  foldl (λ sorted x, insertionSort_insert less x sorted) [] data.

Module net.

Definition missingPort : string := "missing port in address".
Definition tooManyColons : string := "too many colons in address".

(** [AddrError.Error]: the address comes first unless it is empty. *)
Definition addrErr (addr why : string) : string * string * option error :=
  ("", "", Some (Err (if String.eqb addr "" then why
                      else "address " +:+ addr +:+ ": " +:+ why))).

(** [net.SplitHostPort]: the port starts after the last colon; a host in
    brackets must end just before that colon; no other bracket or colon
    may occur. *)
Definition SplitHostPort (hostport : string) : string * string * option error :=
  match strings.LastIndexByte hostport colon with
  | None => addrErr hostport missingPort
  | Some i =>
      let checked : (string * nat * nat) + string :=
        if bool_decide (String.get 0 hostport = Some "["%char) then
          match strings.IndexByte hostport "]"%char with
          | None => inr "missing ']' in address"
          | Some end_ =>
              if (end_ + 1 =? String.length hostport)%nat then inr missingPort
              else if (end_ + 1 =? i)%nat then
                inl (String.substring 1 (end_ - 1) hostport, 1%nat, (end_ + 1)%nat)
              else if bool_decide (String.get (end_ + 1) hostport = Some colon)
              then inr tooManyColons
              else inr missingPort
          end
        else
          let host := String.substring 0 i hostport in
          match strings.IndexByte host colon with
          | Some _ => inr tooManyColons
          | None => inl (host, 0%nat, 0%nat)
          end in
      match checked with
      | inr why => addrErr hostport why
      | inl (host, j, k) =>
          match strings.IndexByte (strings.from j hostport) "["%char with
          | Some _ => addrErr hostport "unexpected '[' in address"
          | None =>
              match strings.IndexByte (strings.from k hostport) "]"%char with
              | Some _ => addrErr hostport "unexpected ']' in address"
              | None => (host, strings.from (i + 1) hostport, None)
              end
          end
      end
  end.

End net.

Module strconv.

Definition digit (c : ascii) : option Z :=
  let n := Z.of_N (N_of_ascii c) in
  if (48 <=? n) && (n <=? 57) then Some (n - 48) else None.

Fixpoint digits (s : string) (acc : Z) : option Z :=
  match s with
  | EmptyString => Some acc
  | String c rest => d ← digit c; digits rest (10 * acc + d)
  end.

Definition lowerhex (n : N) : ascii :=
  default "0"%char (String.get (N.to_nat n) "0123456789abcdef").

(** [strconv.Quote] on one byte: the quote and the backslash get a
    backslash, a printable ASCII byte stands for itself, the control bytes
    have their escapes, and any other byte is written in hexadecimal (a
    valid UTF-8 sequence of several bytes, which Go renders by its Unicode
    tables, is outside this instance). *)
Definition Quote_byte (c : ascii) : string :=
  let n := N_of_ascii c in
  if Ascii.eqb c "034"%char || Ascii.eqb c "\"%char then String "\"%char (String c "")
  else if (32 <=? n)%N && (n <? 127)%N then String c ""
  else if (n =? 7)%N then "\a"
  else if (n =? 8)%N then "\b"
  else if (n =? 12)%N then "\f"
  else if (n =? 10)%N then "\n"
  else if (n =? 13)%N then "\r"
  else if (n =? 9)%N then "\t"
  else if (n =? 11)%N then "\v"
  else "\x" +:+ String (lowerhex (n / 16)) (String (lowerhex (n mod 16)) "").

Fixpoint Quote_bytes (s : string) : string :=
  match s with
  | EmptyString => String "034"%char ""
  | String c rest => Quote_byte c +:+ Quote_bytes rest
  end.

Definition Quote (s : string) : string := String "034"%char (Quote_bytes s).

(** [NumError.Error]: the function, the quoted input and the reason. *)
Definition syntaxErr (s : string) : Z * option error :=
  (0, Some (Err ("strconv.ParseInt: parsing " +:+ Quote s +:+ ": invalid syntax"))).

Definition rangeErr (s : string) (v : Z) : Z * option error :=
  (v, Some (Err ("strconv.ParseInt: parsing " +:+ Quote s +:+ ": value out of range"))).

(** [strconv.ParseInt(s, 10, 64)]: an optional sign, then decimal digits;
    a value outside int64 is an error. *)
Definition ParseInt (s : string) : Z * option error :=
  let '(neg, body) :=
    match s with
    | String "+" rest => (false, rest)
    | String "-" rest => (true, rest)
    | _ => (false, s)
    end in
  match body with
  | EmptyString => syntaxErr s
  | _ =>
      match digits body 0 with
      | None => syntaxErr s
      | Some un =>
          if negb neg && (2 ^ 63 <=? un) then rangeErr s (2 ^ 63 - 1)
          else if neg && (2 ^ 63 <? un) then rangeErr s (- 2 ^ 63)
          else (if neg then - un else un, None)
      end
  end.

End strconv.

(** A slot decoder that accepts no token. *)
Definition DecodeSlotRange_reject (slot : string)
  : list Slot * option ImportingSlot * option MigratingSlot * option error :=
  ([], None, None, Some (Err ("unable to parse slot range: " +:+ slot))).

Module utils.

(** The digits of a string and the text after them. *)
Fixpoint span_digits (s : string) : string * string :=
  match s with
  | EmptyString => (EmptyString, EmptyString)
  | String c rest =>
      match strconv.digit c with
      | Some _ => let '(ds, unit) := span_digits rest in (String c ds, unit)
      | None => (EmptyString, s)
      end
  end.

Definition unit_bytes (unit : string) : option Z :=
  if String.eqb unit "" then Some 1
  else if String.eqb unit "b" then Some 1
  else if String.eqb unit "k" then Some 1000
  else if String.eqb unit "kb" then Some 1024
  else if String.eqb unit "m" then Some (1000 * 1000)
  else if String.eqb unit "mb" then Some (1024 * 1024)
  else if String.eqb unit "g" then Some (1000 * 1000 * 1000)
  else if String.eqb unit "gb" then Some (1024 * 1024 * 1024)
  else None.

Definition Itoa (z : Z) : string :=
  DecimalString.NilZero.string_of_uint (N.to_uint (Z.to_N z)).

(** Modelled from the spec: [utils.ParseRedisMemConf] is outside the
    sources; the spec gives it as the normalizer of a human-readable size
    into a byte count.  Here a size is decimal digits and a unit of the
    redis configuration (b, k, kb, m, mb, g, gb, or none). *)
Definition ParseRedisMemConf (p : string) : string * option error :=
  let '(ds, unit) := span_digits p in
  match ds, unit_bytes unit with
  | String _ _, Some m =>
      match strconv.digits ds 0 with
      | Some v => (Itoa (v * m), None)
      | None => ("", Some (Err ("invalid memory size: " +:+ p)))
      end
  | _, _ => ("", Some (Err ("invalid memory size: " +:+ p)))
  end.

End utils.

(** A transport on which every [CONFIG SET] succeeds. *)
Definition ConfigSet_ok (master : Client) (key value : string) : option error := None.

(** A transport that refuses one key. *)
Definition ConfigSet_refusing (bad : string) (master : Client) (key value : string)
  : option error :=
  if String.eqb key bad then Some (Err ("ERR Unsupported CONFIG parameter: " +:+ key)) else None.

Module slots.

Definition number (s : string) : option Slot :=
  match s with
  | EmptyString => None
  | _ => Z.to_N <$> strconv.digits s 0
  end.

Definition range (lo hi : Slot) : list Slot :=
  N.of_nat <$> seq (N.to_nat lo) (N.to_nat hi + 1 - N.to_nat lo).

Definition bad (slot : string)
  : list Slot * option ImportingSlot * option MigratingSlot * option error :=
  ([], None, None, Some (Err ("unable to parse slot range: " +:+ slot))).

(** The node id of a marker: the text up to the closing bracket, which
    ends the token. *)
Definition marker_id (s : string) : option string :=
  match strings.Cut s "]"%char with
  | (id, EmptyString, true) => Some id
  | _ => None
  end.

(** Modelled from the spec: [DecodeSlotRange] is outside the sources; the
    spec gives the grammar of a slot token: [N] is one slot, [N-M] the
    slots from N to M, [[N->-id]] the slot N migrating to the node id and
    [[N-<-id]] the slot N importing from the node id; any other token is an
    error. *)
Definition DecodeSlotRange (slot : string)
  : list Slot * option ImportingSlot * option MigratingSlot * option error :=
  match slot with
  | String "[" inner =>
      let '(n, rest, _) := strings.Cut inner "-"%char in
      match number n, rest with
      | Some n, String ">" (String "-" tail) =>
          match marker_id tail with
          | Some id =>
              ([], None, Some {| MigratingSlot_SlotID := n; ToNodeID := id |}, None)
          | None => bad slot
          end
      | Some n, String "<" (String "-" tail) =>
          match marker_id tail with
          | Some id =>
              ([], Some {| ImportingSlot_SlotID := n; FromNodeID := id |}, None, None)
          | None => bad slot
          end
      | _, _ => bad slot
      end
  | _ =>
      let '(lo, hi, found) := strings.Cut slot "-"%char in
      if found then
        match number lo, number hi with
        | Some lo, Some hi =>
            if (lo <=? hi)%N then (range lo hi, None, None, None) else bad slot
        | _, _ => bad slot
        end
      else
        match number slot with
        | Some n => ([n], None, None, None)
        | None => bad slot
        end
  end.

End slots.

(** * Properties *)

(** ** The tests of the repository ([node_test.go]) *)

Example TestNodeSetRoleMasterValid : Role (SetRole zeroNode "master") = RedisMasterRole.
Proof. done. Qed.

Example TestNodeSetRoleSlaveValid : Role (SetRole zeroNode "slave") = RedisSlaveRole.
Proof. done. Qed.

Example TestNodeSetRoleNotValid : Role (SetRole zeroNode "king") = "".
Proof. done. Qed.

Example TestNodeSetRoleMultFlags : Role (SetRole zeroNode "myself,slave") = RedisSlaveRole.
Proof. done. Qed.

Example TestNodeSetLinkStatusConnected :
  LinkState (SetLinkStatus zeroNode "connected") = RedisLinkStateConnected.
Proof. done. Qed.

Example TestNodeSetLinkStatusDisconnected :
  LinkState (SetLinkStatus zeroNode "disconnected") = RedisLinkStateDisconnected.
Proof. done. Qed.

Example TestNodeSetLinkStatusKO : LinkState (SetLinkStatus zeroNode "blabla") = "".
Proof. done. Qed.

Example TestNodeSetFailureStateFail :
  HasStatus (SetFailureStatus zeroNode "master,myself,fail") NodeStatusFail = true.
Proof. done. Qed.

Example TestNodeSetFailureStatePFail :
  HasStatus (SetFailureStatus zeroNode "master,myself,fail?") NodeStatusPFail = true.
Proof. done. Qed.

Example TestNodeSetFailureStateOK :
  FailStatus (SetFailureStatus zeroNode "master,myself") = [].
Proof. done. Qed.

Example TestNodeSetReferentMaster :
  MasterReferent (SetReferentMaster zeroNode "899809809808343434342323")
    = "899809809808343434342323".
Proof. done. Qed.

Example TestNodeSetReferentMasterNone : MasterReferent (SetReferentMaster zeroNode "-") = "".
Proof. done. Qed.

Example TestNodeWhereP :
  ID <$> (GetNodesByFunc
            [set_Slots [0%N; 1%N; 4%N; 10%N] (set_Role RedisMasterRole (set_ID "A" zeroNode));
             set_Role RedisSlaveRole (set_ID "B" zeroNode);
             set_Role RedisMasterRole (set_ID "C" zeroNode)] IsMasterWithSlot).1 = ["A"]
  ∧ ID <$> (GetNodesByFunc
            [set_Slots [0%N; 1%N; 4%N; 10%N] (set_Role RedisMasterRole (set_ID "A" zeroNode));
             set_Role RedisSlaveRole (set_ID "B" zeroNode);
             set_Role RedisMasterRole (set_ID "C" zeroNode)] IsMasterWithNoSlot).1 = ["C"]
  ∧ GetNodesByFunc
      [set_Slots [0%N; 1%N; 4%N; 10%N] (set_Role RedisMasterRole (set_ID "A" zeroNode));
       set_Role RedisSlaveRole (set_ID "B" zeroNode);
       set_Role RedisMasterRole (set_ID "C" zeroNode)] IsSlave
    = ([set_Role RedisSlaveRole (set_ID "B" zeroNode)], None).
Proof. done. Qed.

Example TestSearchNodeByID :
  (GetNodeByID [] "B").2 = Some nodeNotFoundedError
  ∧ (GetNodeByID
       [set_Slots [0%N; 1%N; 4%N; 10%N] (set_Role RedisMasterRole (set_ID "A" zeroNode));
        set_Role RedisSlaveRole (set_ID "B" zeroNode);
        set_Role RedisMasterRole (set_ID "C" zeroNode)] "D").2 = Some nodeNotFoundedError
  ∧ GetNodeByID
      [set_Slots [0%N; 1%N; 4%N; 10%N] (set_Role RedisMasterRole (set_ID "A" zeroNode));
       set_Role RedisSlaveRole (set_ID "B" zeroNode);
       set_Role RedisMasterRole (set_ID "C" zeroNode)] "B"
    = (Some (set_Role RedisSlaveRole (set_ID "B" zeroNode)), None).
Proof. done. Qed.

(** The node line of the spec, with [1.2.3.4:6379@16379] as its address. *)
Example DecodeNodeInfos_line_of_the_spec :
  (λ n, (ID n, IP n, Port n, GetRole n, MasterReferent n, LinkState n, ConfigEpoch n))
    <$> (DecodeNodeInfos net.SplitHostPort strconv.ParseInt DecodeSlotRange_reject
           ("abcd 1.2.3.4:6379@16379 master - 0 0 1 connected" +:+ String newline "")).1
  = [("abcd", "1.2.3.4", "6379", "master", "", "connected", 1)].
Proof. by vm_compute. Qed.

(** ** Byte-wise order of strings *)

Lemma string_compare_refl (s : string) : String.compare s s = Eq.
Proof.
  pose proof (String.compare_antisym s s) as H. revert H.
  destruct (String.compare s s); simpl; congruence.
Qed.

Lemma string_ltb_irrefl (s : string) : String.ltb s s = false.
Proof. unfold String.ltb. by rewrite string_compare_refl. Qed.

Lemma string_compare_lt_trans (a b c : string) :
  String.compare a b = Lt → String.compare b c = Lt → String.compare a c = Lt.
Proof.
  intros Hab Hbc.
  apply String_as_OT.cmp_lt.
  eapply String_as_OT.lt_trans; apply String_as_OT.cmp_lt; eassumption.
Qed.

Lemma string_ltb_trans (a b c : string) :
  String.ltb a b = true → String.ltb b c = true → String.ltb a c = true.
Proof.
  unfold String.ltb. intros Hab Hbc.
  destruct (String.compare a b) eqn:Eab; try discriminate.
  destruct (String.compare b c) eqn:Ebc; try discriminate.
  by rewrite (string_compare_lt_trans a b c).
Qed.

Lemma string_ltb_leb (a b : string) :
  String.ltb b a = false ↔ String.leb a b = true.
Proof.
  unfold String.ltb, String.leb. rewrite (String.compare_antisym b a).
  destruct (String.compare a b); simpl; split; congruence.
Qed.

Lemma string_leb_refl (s : string) : String.leb s s = true.
Proof. unfold String.leb. by rewrite string_compare_refl. Qed.

Lemma string_leb_trans (a b c : string) :
  String.leb a b = true → String.leb b c = true → String.leb a c = true.
Proof.
  unfold String.leb. intros Hab Hbc.
  destruct (String.compare a b) eqn:Eab; try discriminate.
  - apply String.compare_eq_iff in Eab. by subst.
  - destruct (String.compare b c) eqn:Ebc; try discriminate.
    + apply String.compare_eq_iff in Ebc. subst. by rewrite Eab.
    + by rewrite (string_compare_lt_trans a b c).
Qed.

Lemma string_ltb_incomparable (a b c : string) :
  String.ltb a b = false → String.ltb b c = false → String.ltb a c = false.
Proof.
  rewrite !string_ltb_leb. intros Hba Hcb. by apply string_leb_trans with b.
Qed.

(** Comparing by id is a strict weak ordering, as [sort.Sort] asks. *)
Lemma LessByID_StrictWeakOrder : StrictWeakOrder LessByID.
Proof.
  split; unfold LessByID; intros.
  - apply string_ltb_irrefl.
  - by eapply string_ltb_trans.
  - by eapply string_ltb_incomparable.
Qed.

Lemma MoreByID_StrictWeakOrder : StrictWeakOrder MoreByID.
Proof.
  split; unfold MoreByID; intros.
  - apply string_ltb_irrefl.
  - by eapply string_ltb_trans.
  - by eapply string_ltb_incomparable.
Qed.

(** ** [strings.Split] and [strings.Cut] *)

Lemma Split_not_nil (s : string) (sep : ascii) : strings.Split s sep ≠ [].
Proof.
  destruct s as [|c s]; simpl; [done|].
  destruct (Ascii.eqb c sep); [done|].
  by destruct (strings.Split s sep).
Qed.

(** [Split] cuts at the first separator and goes on with the rest. *)
Lemma Split_Cut (s : string) (sep : ascii) :
  strings.Split s sep =
    match strings.Cut s sep with
    | (before, after, true) => before :: strings.Split after sep
    | (_, _, false) => [s]
    end.
Proof.
  induction s as [|c s IH]; simpl; [done|].
  destruct (Ascii.eqb c sep); [done|].
  rewrite IH. by destruct (strings.Cut s sep) as [[before after] []].
Qed.

Lemma Cut_found (s : string) (sep : ascii) :
  (strings.Cut s sep).2 = strings.Contains s sep.
Proof.
  induction s as [|c s IH]; simpl; [done|].
  destruct (Ascii.eqb c sep); simpl; [done|].
  by destruct (strings.Cut s sep) as [[before after] found].
Qed.

Lemma Cut_not_found (s : string) (sep : ascii) :
  strings.Contains s sep = false → strings.Cut s sep = (s, "", false).
Proof.
  induction s as [|c s IH]; simpl; [done|].
  destruct (Ascii.eqb c sep); simpl; [done|].
  intros H. by rewrite (IH H).
Qed.

(** Cutting [before ++ sep ++ after] when [before] is free of [sep]. *)
Lemma Cut_app (before after : string) (sep : ascii) :
  strings.Contains before sep = false →
  strings.Cut (before +:+ String sep after) sep = (before, after, true).
Proof.
  induction before as [|c s IH]; simpl.
  - by rewrite Ascii.eqb_refl.
  - destruct (Ascii.eqb c sep); simpl; [done|].
    intros H. by rewrite (IH H).
Qed.

(** The text [Cut] gives back puts the string together again. *)
Lemma Cut_inv (s before after : string) (sep : ascii) :
  strings.Cut s sep = (before, after, true) →
  s = before +:+ String sep after ∧ strings.Contains before sep = false.
Proof.
  revert before. induction s as [|c s IH]; intros before; simpl; [done|].
  destruct (Ascii.eqb_spec c sep) as [->|Hne].
  - intros [= <- <-]. done.
  - destruct (strings.Cut s sep) as [[b a] found] eqn:E.
    intros [= <- <- ->]. destruct (IH b eq_refl) as [-> Hb].
    simpl. split; [done|].
    by destruct (Ascii.eqb_spec c sep).
Qed.

Lemma Split_no_sep (s : string) (sep : ascii) :
  strings.Contains s sep = false → strings.Split s sep = [s].
Proof. intros H. by rewrite Split_Cut, Cut_not_found. Qed.

(** Splitting distributes over a separator. *)
Lemma Split_app (s1 s2 : string) (sep : ascii) :
  strings.Split (s1 +:+ String sep s2) sep = strings.Split s1 sep ++ strings.Split s2 sep.
Proof.
  induction s1 as [|c s IH]; simpl.
  - by rewrite Ascii.eqb_refl.
  - destruct (Ascii.eqb c sep); simpl; [by rewrite IH|].
    rewrite IH. pose proof (Split_not_nil s sep).
    by destruct (strings.Split s sep).
Qed.

(** No field of a split holds the separator. *)
Lemma Split_fields (s : string) (sep : ascii) (w : string) :
  w ∈ strings.Split s sep → strings.Contains w sep = false.
Proof.
  revert w. induction s as [|c s IH]; intros w; simpl.
  - by intros ->%list_elem_of_singleton.
  - destruct (Ascii.eqb c sep) eqn:E.
    + intros [->|H]%elem_of_cons; [done|by apply IH].
    + pose proof (Split_not_nil s sep).
      destruct (strings.Split s sep) as [|w0 ws]; [done|].
      intros [->|H']%elem_of_cons.
      * simpl. rewrite E. simpl. apply IH. by left.
      * apply IH. by right.
Qed.

(** ** Lists *)

Lemma filter_none {A} (P : A → Prop) `{∀ x, Decision (P x)} (l : list A) :
  (∀ x, x ∈ l → ¬ P x) → filter P l = [].
Proof.
  induction l as [|x l IH]; intros Hl; [done|].
  rewrite filter_cons, decide_False by (apply Hl; by left).
  apply IH. intros y Hy. apply Hl. by right.
Qed.

(** ** The node model *)

(** The setters of the record touch one field each. *)
Lemma Role_set_Role (v : string) (n : Node) : Role (set_Role v n) = v.
Proof. done. Qed.

Lemma FailStatus_set_FailStatus (v : list string) (n : Node) :
  FailStatus (set_FailStatus v n) = v.
Proof. done. Qed.

(** One step of the loop of [SetRole]: a role flag replaces the role, any
    other value leaves it. *)
Lemma SetRole_case_Role (n : Node) (val : string) :
  Role (SetRole_case n val) = if bool_decide (val ∈ RoleFlags) then val else Role n.
Proof.
  unfold SetRole_case, RoleFlags.
  destruct (String.eqb_spec val RedisMasterRole) as [->|Hm]; [done|].
  destruct (String.eqb_spec val RedisSlaveRole) as [->|Hs]; [done|].
  rewrite bool_decide_eq_false_2; [done|].
  rewrite !elem_of_cons, elem_of_nil. tauto.
Qed.

(** The loop of [SetRole]: the last role flag wins. *)
Lemma SetRole_loop_Role (vals : list string) (n : Node) :
  Role (foldl SetRole_case n vals) =
    default (Role n) (last (filter (λ val, val ∈ RoleFlags) vals)).
Proof.
  induction vals as [|val vals IH] using rev_ind; [done|].
  rewrite foldl_snoc, SetRole_case_Role, filter_app, filter_cons, filter_nil.
  case_bool_decide as Hval.
  - rewrite decide_True by done. by rewrite last_snoc.
  - rewrite decide_False by done. by rewrite app_nil_r.
Qed.

Lemma SetRole_Role (n : Node) (flags : string) :
  Role (SetRole n flags) =
    default "" (last (filter (λ val, val ∈ RoleFlags) (strings.Split flags comma))).
Proof. unfold SetRole. by rewrite SetRole_loop_Role. Qed.

(** [SetRole] does not read the role the node had. *)
Lemma SetRole_reset (n : Node) (previous flags : string) :
  SetRole (set_Role previous n) flags = SetRole n flags.
Proof. done. Qed.

(** [SetLinkStatus] does not read the link state the node had. *)
Lemma SetLinkStatus_reset (n : Node) (previous status : string) :
  SetLinkStatus (set_LinkState previous n) status = SetLinkStatus n status.
Proof. done. Qed.

Lemma SetLinkStatus_LinkState (n : Node) (status : string) :
  LinkState (SetLinkStatus n status) =
    if bool_decide (status ∈ [RedisLinkStateConnected; RedisLinkStateDisconnected])
    then status else "".
Proof.
  unfold SetLinkStatus.
  destruct (String.eqb_spec status RedisLinkStateConnected) as [->|Hc]; [done|].
  destruct (String.eqb_spec status RedisLinkStateDisconnected) as [->|Hd]; [done|].
  rewrite bool_decide_eq_false_2; [done|].
  rewrite !elem_of_cons, elem_of_nil. tauto.
Qed.

(** One step of the loop of [SetFailureStatus]: a failure flag is appended,
    any other value changes nothing. *)
Lemma SetFailureStatus_case_FailStatus (n : Node) (val : string) :
  FailStatus (SetFailureStatus_case n val) =
    FailStatus n ++ filter (λ val, val ∈ FailureFlags) [val].
Proof.
  unfold SetFailureStatus_case, FailureFlags. rewrite filter_cons, filter_nil.
  destruct (String.eqb_spec val NodeStatusFail) as [->|H1]; [done|].
  destruct (String.eqb_spec val NodeStatusPFail) as [->|H2]; [done|].
  destruct (String.eqb_spec val NodeStatusHandshake) as [->|H3]; [done|].
  destruct (String.eqb_spec val NodeStatusNoAddr) as [->|H4]; [done|].
  destruct (String.eqb_spec val NodeStatusNoFlags) as [->|H5]; [done|].
  rewrite decide_False; [by rewrite app_nil_r|].
  rewrite !elem_of_cons, elem_of_nil. tauto.
Qed.

Lemma SetFailureStatus_loop_FailStatus (vals : list string) (n : Node) :
  FailStatus (foldl SetFailureStatus_case n vals) =
    FailStatus n ++ filter (λ val, val ∈ FailureFlags) vals.
Proof.
  revert n. induction vals as [|val vals IH]; intros n; simpl.
  - by rewrite filter_nil, app_nil_r.
  - rewrite IH, SetFailureStatus_case_FailStatus, <- (assoc_L (++)).
    f_equal. by rewrite <- filter_app.
Qed.

(** [HasStatus] is membership in the list of failure flags. *)
Lemma HasStatus_elem_of (n : Node) (flag : string) :
  HasStatus n flag = true ↔ flag ∈ FailStatus n.
Proof.
  unfold HasStatus. induction (FailStatus n) as [|status rest IH]; simpl.
  - rewrite elem_of_nil. split; [done|tauto].
  - rewrite elem_of_cons.
    destruct (String.eqb_spec status flag) as [->|Hne]; [tauto|].
    rewrite IH. split; [tauto|]. intros [?|?]; [congruence|done].
Qed.

(** C4 (as amended): after [SetFailureStatus] the failure status holds, in
    the order of the flags string, one entry for every occurrence of a
    failure flag in it: every entry is one of fail, fail?, handshake, noaddr
    and noflags, every other value of the flags string is left out, and the
    entries are free of duplicates when the values of the flags string
    are. *)
Theorem SetFailureStatus_FailStatus (n : Node) (flags : string) :
  FailStatus (SetFailureStatus n flags) =
    filter (λ val, val ∈ FailureFlags) (strings.Split flags comma)
  ∧ (∀ flag, flag ∈ FailStatus (SetFailureStatus n flags) →
       flag ∈ ["fail"; "fail?"; "handshake"; "noaddr"; "noflags"]
       ∧ flag ∈ strings.Split flags comma)
  ∧ (∀ val, val ∈ strings.Split flags comma → val ∉ FailureFlags →
       val ∉ FailStatus (SetFailureStatus n flags))
  ∧ (NoDup (strings.Split flags comma) → NoDup (FailStatus (SetFailureStatus n flags))).
Proof.
  assert (FailStatus (SetFailureStatus n flags) =
            filter (λ val, val ∈ FailureFlags) (strings.Split flags comma)) as E.
  { unfold SetFailureStatus. by rewrite SetFailureStatus_loop_FailStatus. }
  rewrite E. split_and!; [done|..].
  - intros flag [Hflag Hin]%list_elem_of_filter. done.
  - intros val _ Hval [Hflag _]%list_elem_of_filter. done.
  - apply NoDup_filter.
Qed.

(** A flags string without repeated value: the failure status has no
    duplicate. *)
Lemma SetFailureStatus_FailStatus_witness :
  NoDup (FailStatus (SetFailureStatus zeroNode "master,fail?,fail")).
Proof.
  destruct (SetFailureStatus_FailStatus zeroNode "master,fail?,fail") as (_ & _ & _ & H).
  apply H. compute_done.
Defined.

(** C4 (as stated) fails: a flag given twice is recorded twice. *)
Lemma SetFailureStatus_duplicate :
  FailStatus (SetFailureStatus zeroNode "fail,fail") = ["fail"; "fail"]
  ∧ ¬ NoDup (FailStatus (SetFailureStatus zeroNode "fail,fail")).
Proof.
  split; [done|].
  intros H. apply NoDup_cons in H as [H _]. apply H. by left.
Qed.

(** C7: [GetRole] gives the role the node holds when it is master or slave;
    otherwise slave for a node with a master referent, master for a node
    without referent that owns a slot, and none for a node with neither. *)
Theorem GetRole_cases (n : Node) :
  (Role n = "master" → GetRole n = "master")
  ∧ (Role n = "slave" → GetRole n = "slave")
  ∧ (Role n ≠ "master" → Role n ≠ "slave" →
       (MasterReferent n ≠ "" → GetRole n = "slave")
       ∧ (MasterReferent n = "" → (0 < length (Slots n))%nat → GetRole n = "master")
       ∧ (MasterReferent n = "" → length (Slots n) = 0%nat → GetRole n = "none")).
Proof.
  unfold GetRole, RedisMasterRole, RedisSlaveRole.
  split_and!.
  - by intros ->.
  - by intros ->.
  - intros Hm Hs.
    destruct (String.eqb_spec (Role n) "master"); [done|].
    destruct (String.eqb_spec (Role n) "slave"); [done|].
    split_and!.
    + intros Href. by destruct (String.eqb_spec (MasterReferent n) "").
    + intros -> Hlen. simpl.
      by destruct (Nat.ltb_spec 0 (length (Slots n))); [|lia].
    + intros -> Hlen. simpl. by rewrite Hlen.
Qed.

(** The cases of [GetRole] on nodes without a role: a replica, an owner of
    slots, and a node with neither. *)
Lemma GetRole_cases_witness :
  GetRole (set_MasterReferent "abcd" zeroNode) = "slave"
  ∧ GetRole (set_Slots [0%N; 1%N] zeroNode) = "master"
  ∧ GetRole zeroNode = "none".
Proof.
  split_and!.
  - destruct (GetRole_cases (set_MasterReferent "abcd" zeroNode)) as (_ & _ & H).
    destruct H as (H & _ & _); [done..|]. by apply H.
  - destruct (GetRole_cases (set_Slots [0%N; 1%N] zeroNode)) as (_ & _ & H).
    destruct H as (_ & H & _); [done..|]. apply H; [done|simpl; lia].
  - destruct (GetRole_cases zeroNode) as (_ & _ & H).
    destruct H as (_ & _ & H); [done..|]. by apply H.
Defined.

(** C8: the setters of the role and of the link state clear the field and
    then apply the flags.  Whatever the node held, [SetRole] leaves as role
    the last of the comma-separated values that is master or slave, so a
    role flag among the values is always applied, and the empty string
    exactly when no value is one; [SetLinkStatus] leaves the status itself
    when it is connected or disconnected and the empty string for every
    other status.  [SetRole] with myself,slave and then with king leaves
    the role empty. *)
Theorem SetRole_SetLinkStatus_reset (n : Node) (flags status : string) :
  ((∀ val, val ∈ strings.Split flags comma → val ≠ "master" ∧ val ≠ "slave") →
     Role (SetRole n flags) = "")
  ∧ (status ≠ "connected" → status ≠ "disconnected" →
     LinkState (SetLinkStatus n status) = "")
  ∧ (∀ previous, SetRole (set_Role previous n) flags = SetRole n flags)
  ∧ (∀ previous, SetLinkStatus (set_LinkState previous n) status = SetLinkStatus n status)
  ∧ Role (SetRole n "myself,slave") = "slave"
  ∧ Role (SetRole (SetRole n "myself,slave") "king") = ""
  ∧ Role (SetRole n flags) =
      default "" (last (filter (λ val, val ∈ ["master"; "slave"]) (strings.Split flags comma)))
  ∧ ((∃ val, val ∈ strings.Split flags comma ∧ (val = "master" ∨ val = "slave")) →
     (Role (SetRole n flags) = "master" ∨ Role (SetRole n flags) = "slave")
     ∧ Role (SetRole n flags) ∈ strings.Split flags comma)
  ∧ (∀ before role, role = "master" ∨ role = "slave" →
       Role (SetRole n (before +:+ String comma role)) = role)
  ∧ (status = "connected" ∨ status = "disconnected" →
     LinkState (SetLinkStatus n status) = status)
  ∧ SetLinkStatus n status =
      set_LinkState
        (if bool_decide (status ∈ ["connected"; "disconnected"]) then status else "") n.
Proof.
  assert (Role (SetRole n flags) =
            default "" (last (filter (λ val, val ∈ ["master"; "slave"])
                                (strings.Split flags comma)))) as HRole
    by apply SetRole_Role.
  split_and!; [| |done|done|done|done|exact HRole| | | |].
  - intros Hvals. rewrite SetRole_Role.
    replace (filter (λ val, val ∈ RoleFlags) (strings.Split flags comma))
      with (@nil string); [done|].
    symmetry. apply filter_none. intros val Hval.
    unfold RoleFlags, RedisMasterRole, RedisSlaveRole.
    rewrite !elem_of_cons, elem_of_nil. destruct (Hvals val Hval). tauto.
  - intros Hc Hd. rewrite SetLinkStatus_LinkState.
    rewrite bool_decide_eq_false_2; [done|].
    unfold RedisLinkStateConnected, RedisLinkStateDisconnected.
    rewrite !elem_of_cons, elem_of_nil. tauto.
  - intros (val & Hin & Hval). rewrite HRole.
    destruct (last (filter (λ val, val ∈ ["master"; "slave"]) (strings.Split flags comma)))
      as [role|] eqn:E; simpl.
    + apply last_Some_elem_of, list_elem_of_filter in E as [Hrole Hsplit].
      split; [|done]. revert Hrole. rewrite !elem_of_cons, elem_of_nil. tauto.
    + apply last_None in E.
      assert (val ∈ filter (λ val, val ∈ ["master"; "slave"]) (strings.Split flags comma))
        as Hfil.
      { apply list_elem_of_filter. split; [|done].
        rewrite !elem_of_cons, elem_of_nil. tauto. }
      rewrite E in Hfil. by apply elem_of_nil in Hfil.
  - intros before role Hrole. rewrite SetRole_Role.
    rewrite Split_app, filter_app.
    assert (strings.Split role comma = [role]) as ->
      by (by destruct Hrole as [->| ->]).
    rewrite filter_cons, filter_nil, decide_True, last_snoc; [done|].
    unfold RoleFlags, RedisMasterRole, RedisSlaveRole.
    rewrite !elem_of_cons, elem_of_nil. tauto.
  - intros Hstatus. rewrite SetLinkStatus_LinkState.
    rewrite bool_decide_eq_true_2; [done|].
    unfold RedisLinkStateConnected, RedisLinkStateDisconnected.
    rewrite !elem_of_cons, elem_of_nil. tauto.
  - unfold SetLinkStatus.
    destruct (String.eqb_spec status RedisLinkStateConnected) as [->|Hc]; [done|].
    destruct (String.eqb_spec status RedisLinkStateDisconnected) as [->|Hd]; [done|].
    rewrite bool_decide_eq_false_2; [done|].
    unfold RedisLinkStateConnected, RedisLinkStateDisconnected in *.
    rewrite !elem_of_cons, elem_of_nil. tauto.
Qed.

(** A slave whose flags then hold no role, a connected node whose status
    is then unknown, and a connected node whose status is then
    disconnected: the first two fields end up empty, the third holds the
    new status. *)
Lemma SetRole_SetLinkStatus_reset_witness :
  Role (SetRole (set_Role "slave" zeroNode) "myself,king") = ""
  ∧ LinkState (SetLinkStatus (set_LinkState "connected" zeroNode) "blabla") = ""
  ∧ LinkState (SetLinkStatus (set_LinkState "connected" zeroNode) "disconnected")
    = "disconnected".
Proof.
  split_and!.
  - destruct (SetRole_SetLinkStatus_reset (set_Role "slave" zeroNode) "myself,king" "blabla")
      as [HRole _].
    apply HRole. intros val Hval. vm_compute in Hval.
    apply elem_of_cons in Hval as [->|Hval]; [done|].
    apply list_elem_of_singleton in Hval as ->. done.
  - destruct (SetRole_SetLinkStatus_reset (set_LinkState "connected" zeroNode) "" "blabla")
      as (_ & HLink & _).
    apply HLink; done.
  - destruct (SetRole_SetLinkStatus_reset (set_LinkState "connected" zeroNode) "" "disconnected")
      as (_ & _ & _ & _ & _ & _ & _ & _ & _ & HLink & _).
    apply HLink. by right.
Defined.

(** ** The node collection *)

(** The loop shared by [GetNodesByFunc] and [FilterByFunc] collects the
    nodes the function accepts, in order. *)
Lemma collect_loop (f : Node → bool) (n acc : Nodes) :
  foldl (λ nodes node, if f node then nodes ++ [node] else nodes) acc n =
    acc ++ filter (λ node, f node = true) n.
Proof.
  revert acc. induction n as [|node n IH]; intros acc.
  - by rewrite filter_nil, app_nil_r.
  - simpl foldl. rewrite IH, filter_cons. destruct (f node) eqn:E.
    + rewrite decide_True by done. by rewrite <- (assoc_L (++)).
    + by rewrite decide_False by done.
Qed.

Lemma FilterByFunc_filter (n : Nodes) (fn : Node → bool) :
  FilterByFunc n fn = filter (λ node, fn node = true) n.
Proof. unfold FilterByFunc. by rewrite collect_loop. Qed.

Lemma GetNodesByFunc_filter (n : Nodes) (f : FindNodeFunc) :
  GetNodesByFunc n f =
    (filter (λ node, f node = true) n,
     if decide (filter (λ node, f node = true) n = []) then Some nodeNotFoundedError else None).
Proof.
  unfold GetNodesByFunc. rewrite collect_loop. simpl.
  by destruct (filter (λ node, f node = true) n).
Qed.

Lemma filter_nil_none (f : Node → bool) (n : Nodes) :
  filter (λ node, f node = true) n = [] ↔ ∀ node, node ∈ n → f node = false.
Proof.
  split.
  - intros E node Hnode. destruct (f node) eqn:Ef; [|done].
    by destruct (filter_nil_not_elem_of (λ node, f node = true) n node).
  - intros Hn. apply filter_none. intros node Hnode. by rewrite (Hn node Hnode).
Qed.

(** [CountByFunc] counts the nodes the function accepts. *)
Lemma CountByFunc_length (n : Nodes) (fn : Node → bool) :
  CountByFunc n fn = Z.of_nat (length (filter (λ node, fn node = true) n)).
Proof.
  unfold CountByFunc.
  assert (∀ acc, foldl (λ result v, if fn v then result + 1 else result) acc n =
                 acc + Z.of_nat (length (filter (λ node, fn node = true) n))) as H.
  { induction n as [|node n IH]; intros acc.
    - rewrite filter_nil. simpl. lia.
    - simpl foldl. rewrite IH, filter_cons. destruct (fn node) eqn:E.
      + rewrite decide_True by done. simpl. lia.
      + by rewrite decide_False by done. }
  by rewrite H.
Qed.

(** The three lookups scan for the first node a test accepts. *)
Lemma GetNodeByID_found (n : Nodes) (id : string) (node : Node) :
  GetNodeByID n id = (Some node, None) ↔
  ∃ before after, n = before ++ node :: after ∧ ID node = id
                  ∧ ∀ other, other ∈ before → ID other ≠ id.
Proof.
  induction n as [|x n IH]; simpl.
  - split; [done|]. intros (before & after & E & _). by destruct before.
  - destruct (String.eqb_spec (ID x) id) as [Hx|Hx].
    + split.
      * intros [= ->]. exists [], n. split_and!; [done..|]. by intros other ?%elem_of_nil.
      * intros (before & after & E & Hid & Hbefore).
        destruct before as [|y before]; simplify_eq/=; [done|].
        destruct (Hbefore y); [by left|done].
    + rewrite IH. split.
      * intros (before & after & -> & Hid & Hbefore).
        exists (x :: before), after. split_and!; [done..|].
        intros other [->|?]%elem_of_cons; [done|by apply Hbefore].
      * intros (before & after & E & Hid & Hbefore).
        destruct before as [|y before]; simplify_eq/=.
        exists before, after. split_and!; [done..|].
        intros other ?. apply Hbefore. by right.
Qed.

Lemma GetNodeByID_not_found (n : Nodes) (id : string) :
  GetNodeByID n id = (None, Some nodeNotFoundedError) ↔
  ∀ node, node ∈ n → ID node ≠ id.
Proof.
  induction n as [|x n IH]; simpl.
  - split; [|done]. by intros _ node ?%elem_of_nil.
  - destruct (String.eqb_spec (ID x) id) as [Hx|Hx].
    + split; [done|]. intros Hn. destruct (Hn x); [by left|done].
    + rewrite IH. split.
      * intros Hn node [->|?]%elem_of_cons; [done|by apply Hn].
      * intros Hn node ?. apply Hn. by right.
Qed.

Lemma GetNodeByID_total (n : Nodes) (id : string) :
  GetNodeByID n id = (None, Some nodeNotFoundedError)
  ∨ ∃ node, GetNodeByID n id = (Some node, None).
Proof.
  induction n as [|x n IH]; simpl; [by left|].
  destruct (String.eqb (ID x) id); [right; by exists x|done].
Qed.

Lemma GetNodeByMasterID_found (n : Nodes) (id : string) (node : Node) :
  GetNodeByMasterID n id = (Some node, None) ↔
  ∃ before after, n = before ++ node :: after ∧ MasterReferent node = id
                  ∧ ∀ other, other ∈ before → MasterReferent other ≠ id.
Proof.
  induction n as [|x n IH]; simpl.
  - split; [done|]. intros (before & after & E & _). by destruct before.
  - destruct (String.eqb_spec (MasterReferent x) id) as [Hx|Hx].
    + split.
      * intros [= ->]. exists [], n. split_and!; [done..|]. by intros other ?%elem_of_nil.
      * intros (before & after & E & Hid & Hbefore).
        destruct before as [|y before]; simplify_eq/=; [done|].
        destruct (Hbefore y); [by left|done].
    + rewrite IH. split.
      * intros (before & after & -> & Hid & Hbefore).
        exists (x :: before), after. split_and!; [done..|].
        intros other [->|?]%elem_of_cons; [done|by apply Hbefore].
      * intros (before & after & E & Hid & Hbefore).
        destruct before as [|y before]; simplify_eq/=.
        exists before, after. split_and!; [done..|].
        intros other ?. apply Hbefore. by right.
Qed.

Lemma GetNodeByMasterID_not_found (n : Nodes) (id : string) :
  GetNodeByMasterID n id = (None, Some nodeNotFoundedError) ↔
  ∀ node, node ∈ n → MasterReferent node ≠ id.
Proof.
  induction n as [|x n IH]; simpl.
  - split; [|done]. by intros _ node ?%elem_of_nil.
  - destruct (String.eqb_spec (MasterReferent x) id) as [Hx|Hx].
    + split; [done|]. intros Hn. destruct (Hn x); [by left|done].
    + rewrite IH. split.
      * intros Hn node [->|?]%elem_of_cons; [done|by apply Hn].
      * intros Hn node ?. apply Hn. by right.
Qed.

Lemma GetNodeByMasterID_total (n : Nodes) (id : string) :
  GetNodeByMasterID n id = (None, Some nodeNotFoundedError)
  ∨ ∃ node, GetNodeByMasterID n id = (Some node, None).
Proof.
  induction n as [|x n IH]; simpl; [by left|].
  destruct (String.eqb (MasterReferent x) id); [right; by exists x|done].
Qed.

(** C5: [GetNodesByFunc] and [GetNodeByID] give [nodeNotFoundedError]
    exactly when no node of the collection matches, and no error otherwise;
    [GetNodeByID] on the empty collection gives it; [FilterByFunc] has no
    error result and gives the matching nodes, none when nothing matches. *)
Theorem lookups_NotFound (n : Nodes) (f : FindNodeFunc) (id : string) :
  ((GetNodesByFunc n f).2 = Some nodeNotFoundedError ↔ ∀ node, node ∈ n → f node = false)
  ∧ ((GetNodesByFunc n f).2 = None ↔ ∃ node, node ∈ n ∧ f node = true)
  ∧ (GetNodesByFunc n f).1 = filter (λ node, f node = true) n
  ∧ ((GetNodeByID n id).2 = Some nodeNotFoundedError ↔ ∀ node, node ∈ n → ID node ≠ id)
  ∧ ((GetNodeByID n id).2 = None ↔ ∃ node, node ∈ n ∧ ID node = id)
  ∧ GetNodeByID [] id = (None, Some nodeNotFoundedError)
  ∧ FilterByFunc n f = filter (λ node, f node = true) n
  ∧ ((∀ node, node ∈ n → f node = false) → FilterByFunc n f = [])
  ∧ FilterByFunc [] f = [].
Proof.
  split_and!; try done.
  - rewrite GetNodesByFunc_filter, <- filter_nil_none. simpl.
    case_decide; split; congruence.
  - rewrite GetNodesByFunc_filter. simpl. case_decide as E.
    + split; [done|]. intros (node & Hnode & Hf).
      rewrite filter_nil_none in E. by rewrite (E node Hnode) in Hf.
    + split; [|done]. intros _.
      destruct (filter (λ node, f node = true) n) as [|node l] eqn:El; [done|].
      assert (node ∈ filter (λ node, f node = true) n) as Hin by (rewrite El; by left).
      apply list_elem_of_filter in Hin as [Hf Hn]. exists node. by split.
  - by rewrite GetNodesByFunc_filter.
  - rewrite <- GetNodeByID_not_found.
    destruct (GetNodeByID_total n id) as [->|[node ->]]; simpl; split; congruence.
  - destruct (GetNodeByID_total n id) as [E|[node E]]; rewrite E; simpl.
    + split; [done|]. intros (node & Hnode & Hid).
      by destruct (proj1 (GetNodeByID_not_found n id) E node Hnode).
    + split; [|done]. intros _.
      apply GetNodeByID_found in E as (before & after & -> & Hid & _).
      exists node. split; [|done]. apply elem_of_app. right. by left.
  - apply FilterByFunc_filter.
  - intros Hn. by rewrite FilterByFunc_filter, filter_nil_none.
Qed.

(** A collection without slave: [FilterByFunc] gives the empty collection
    where [GetNodesByFunc] gives the error. *)
Lemma lookups_NotFound_witness :
  FilterByFunc [NewNode "abcd" "1.2.3.1" None] IsSlave = []
  ∧ (GetNodesByFunc [NewNode "abcd" "1.2.3.1" None] IsSlave).2 = Some nodeNotFoundedError.
Proof.
  destruct (lookups_NotFound [NewNode "abcd" "1.2.3.1" None] IsSlave "abcd")
    as (HGet & _ & _ & _ & _ & _ & _ & HFilter & _).
  assert (∀ node, node ∈ [NewNode "abcd" "1.2.3.1" None] → IsSlave node = false) as Hnone.
  { intros node Hnode. apply list_elem_of_singleton in Hnode as ->. done. }
  split; [by apply HFilter|by apply HGet].
Defined.

(** C10: [GetNodeByMasterID] gives the first node whose master referent is
    the id, whatever the ids of the nodes, and [nodeNotFoundedError] exactly
    when no node has that master referent: a node with that id does not
    count, and the node found has another id than the master it follows. *)
Theorem GetNodeByMasterID_first_replica (n : Nodes) (id : string) :
  (∀ node, GetNodeByMasterID n id = (Some node, None) ↔
     ∃ before after, n = before ++ node :: after ∧ MasterReferent node = id
                     ∧ ∀ other, other ∈ before → MasterReferent other ≠ id)
  ∧ (GetNodeByMasterID n id = (None, Some nodeNotFoundedError) ↔
     ∀ node, node ∈ n → MasterReferent node ≠ id)
  ∧ (GetNodeByMasterID n id = (None, Some nodeNotFoundedError)
     ∨ ∃ node, GetNodeByMasterID n id = (Some node, None))
  ∧ GetNodeByMasterID [NewNode id "1.2.3.1" None] id =
      (if String.eqb id "" then (Some (NewNode id "1.2.3.1" None), None)
       else (None, Some nodeNotFoundedError))
  ∧ GetNodeByMasterID
      [NewNode "abcd" "1.2.3.1" None; set_MasterReferent "abcd" (NewNode "edfg" "1.2.3.2" None)]
      "abcd" = (Some (set_MasterReferent "abcd" (NewNode "edfg" "1.2.3.2" None)), None)
  ∧ GetNodeByMasterID [NewNode "abcd" "1.2.3.1" None] "abcd" = (None, Some nodeNotFoundedError)
  ∧ GetNodeByID [NewNode "abcd" "1.2.3.1" None] "abcd" = (Some (NewNode "abcd" "1.2.3.1" None), None).
Proof.
  split_and!; try done.
  - intros node. apply GetNodeByMasterID_found.
  - apply GetNodeByMasterID_not_found.
  - apply GetNodeByMasterID_total.
  - simpl. rewrite String.eqb_sym. by destruct (String.eqb id "").
Qed.

(** ** The status decoder *)

Lemma Cut_not_found_before (s : string) (sep : ascii) :
  (strings.Cut s sep).2 = false → (strings.Cut s sep).1.1 = s.
Proof.
  rewrite Cut_found. intros H. by rewrite Cut_not_found.
Qed.

(** The first field of a split is the text before the first separator. *)
Lemma Split_first (s : string) (sep : ascii) :
  ∃ fields, strings.Split s sep = (strings.Cut s sep).1.1 :: fields.
Proof.
  rewrite Split_Cut. pose proof (Cut_not_found_before s sep) as H.
  destruct (strings.Cut s sep) as [[before after] []]; simpl in *.
  - by eexists.
  - exists []. by rewrite H.
Qed.

Lemma entry_between_colons_None (line : string) :
  entry_between_colons line = None ↔ strings.Contains line colon = false.
Proof.
  unfold entry_between_colons. rewrite <- Cut_found.
  by destruct (strings.Cut line colon) as [[key rest] []].
Qed.

(** A line [key:value] and a line [key:value:more], the key and the value
    free of colons: both give the entry [(key, value)]. *)
Lemma entry_between_colons_one (key value : string) :
  strings.Contains key colon = false → strings.Contains value colon = false →
  entry_between_colons (key +:+ String colon value) = Some (key, value).
Proof.
  intros Hkey Hvalue. unfold entry_between_colons.
  by rewrite (Cut_app key value colon Hkey), (Cut_not_found value colon Hvalue).
Qed.

Lemma entry_between_colons_more (key value more : string) :
  strings.Contains key colon = false → strings.Contains value colon = false →
  entry_between_colons (key +:+ String colon (value +:+ String colon more)) = Some (key, value).
Proof.
  intros Hkey Hvalue. unfold entry_between_colons.
  by rewrite (Cut_app key _ colon Hkey), (Cut_app value more colon Hvalue).
Qed.

Lemma entry_first_colon_app (key rest : string) :
  strings.Contains key colon = false →
  entry_first_colon (key +:+ String colon rest) = Some (key, rest).
Proof.
  intros Hkey. unfold entry_first_colon. by rewrite (Cut_app key rest colon Hkey).
Qed.

(** The body of the loop, by the entry of the line. *)
Lemma DecodeClusterInfos_line_entry (st : gmap string string * list LogEntry) (line : string) :
  DecodeClusterInfos_line st line =
    match entry_between_colons line with
    | Some (key, value) => (<[key := value]> st.1, st.2)
    | None =>
        (st.1, st.2 ++ [Infof 2 "Not enough values in line split, ignoring line: '%s'" [line]])
    end.
Proof.
  destruct st as [clusterInfo log].
  unfold DecodeClusterInfos_line, entry_between_colons. rewrite Split_Cut.
  destruct (strings.Cut line colon) as [[key rest] []]; [|done].
  by destruct (Split_first rest colon) as [fields ->].
Qed.

Lemma DecodeClusterInfos_loop (lines : list string) (st : gmap string string * list LogEntry) :
  foldl DecodeClusterInfos_line st lines =
    (foldl (λ m kv, <[kv.1 := kv.2]> m) st.1 (omap entry_between_colons lines),
     st.2 ++ ((λ line, Infof 2 "Not enough values in line split, ignoring line: '%s'" [line])
                <$> filter (λ line, strings.Contains line colon = false) lines)).
Proof.
  revert st. induction lines as [|line lines IH]; intros st.
  - rewrite filter_nil. simpl. rewrite app_nil_r. by destruct st.
  - simpl foldl. rewrite IH, DecodeClusterInfos_line_entry, filter_cons. simpl omap.
    destruct (entry_between_colons line) as [[key value]|] eqn:E.
    + rewrite decide_False; [done|].
      rewrite <- entry_between_colons_None. congruence.
    + rewrite decide_True by (by apply entry_between_colons_None).
      simpl. by rewrite <- (assoc_L (++)).
Qed.

(** The mapping of a sequence of entries gives a key the value of its last
    entry. *)
Lemma entries_to_map_lookup (entries : list (string * string)) (key : string) :
  entries_to_map entries !! key = snd <$> last (filter (λ kv, kv.1 = key) entries).
Proof.
  unfold entries_to_map.
  induction entries as [|[k v] entries IH] using rev_ind; [done|].
  rewrite foldl_snoc, filter_app, filter_cons, filter_nil. simpl.
  destruct (decide (k = key)) as [->|Hne].
  - by rewrite lookup_insert_eq, last_snoc.
  - by rewrite lookup_insert_ne, app_nil_r.
Qed.

(** C3 (as amended): [DecodeClusterInfos] gives every line with a colon an
    entry whose key is the text before the first colon and whose value is
    the text between the first colon and the second, that is the whole rest
    of the line when the rest has no colon (the value may be empty); text
    after a second colon is dropped; a later entry replaces an earlier one
    with the same key; a line without colon gives no entry and no error,
    only a log line of verbosity 2. *)
Theorem DecodeClusterInfos_entries (input : string) :
  (DecodeClusterInfos input).1 =
    entries_to_map (omap entry_between_colons (strings.Split input newline))
  ∧ (∀ key, (DecodeClusterInfos input).1 !! key =
       snd <$> last (filter (λ kv, kv.1 = key)
                       (omap entry_between_colons (strings.Split input newline))))
  ∧ (DecodeClusterInfos input).2 =
      (λ line, Infof 2 "Not enough values in line split, ignoring line: '%s'" [line])
        <$> filter (λ line, strings.Contains line colon = false) (strings.Split input newline)
  ∧ (∀ line, entry_between_colons line = None ↔ strings.Contains line colon = false)
  ∧ (∀ key value, strings.Contains key colon = false → strings.Contains value colon = false →
       entry_between_colons (key +:+ String colon value) = Some (key, value)
       ∧ entry_first_colon (key +:+ String colon value) = Some (key, value))
  ∧ (∀ key value more,
       strings.Contains key colon = false → strings.Contains value colon = false →
       entry_between_colons (key +:+ String colon (value +:+ String colon more))
         = Some (key, value)).
Proof.
  assert ((DecodeClusterInfos input).1 =
            entries_to_map (omap entry_between_colons (strings.Split input newline))) as E.
  { unfold DecodeClusterInfos. by rewrite DecodeClusterInfos_loop. }
  split_and!.
  - done.
  - intros key. by rewrite E, entries_to_map_lookup.
  - unfold DecodeClusterInfos. by rewrite DecodeClusterInfos_loop.
  - apply entry_between_colons_None.
  - intros key value Hkey Hvalue. split.
    + by apply entry_between_colons_one.
    + by apply entry_first_colon_app.
  - apply entry_between_colons_more.
Qed.

(** A status text of three lines, the last one empty: two entries, the
    value of the second one empty. *)
Lemma DecodeClusterInfos_entries_witness :
  entry_between_colons ("cluster_state" +:+ String colon "ok") = Some ("cluster_state", "ok")
  ∧ (DecodeClusterInfos ("cluster_state:ok" +:+ String newline ("cluster_name:" +:+ String newline ""))).1
      !! "cluster_name" = Some "".
Proof.
  split.
  - destruct (DecodeClusterInfos_entries "") as (_ & _ & _ & _ & H & _).
    by apply (H "cluster_state" "ok").
  - destruct (DecodeClusterInfos_entries
                ("cluster_state:ok" +:+ String newline ("cluster_name:" +:+ String newline "")))
      as (_ & H & _).
    rewrite H. by vm_compute.
Defined.

(** C3 (as stated) fails: of a value with a colon only the text before
    that colon is kept. *)
Lemma DecodeClusterInfos_value_with_colon :
  (DecodeClusterInfos "a:b:c").1 !! "a" = Some "b"
  ∧ entry_first_colon "a:b:c" = Some ("a", "b:c")
  ∧ (DecodeClusterInfos "a:b:c").1 !! "a"
      ≠ entries_to_map (omap entry_first_colon (strings.Split "a:b:c" newline)) !! "a".
Proof.
  split_and!; [by vm_compute..|].
  rewrite entries_to_map_lookup.
  destruct (DecodeClusterInfos_entries "a:b:c") as (_ & -> & _).
  by vm_compute.
Qed.

(** ** Sorting *)

(** [Less(i, j)] of the two implementations of [sort.Interface] compares
    the elements at [i] and [j]: by id for [Nodes], by the closure for
    [nodeSorter]. *)
Lemma Nodes_Less_LessByID (n : list Node) (i j : nat) (ni nj : Node) :
  n !! i = Some ni → n !! j = Some nj → Nodes_Less n i j = Some (LessByID ni nj).
Proof. intros Hi Hj. unfold Nodes_Less. by rewrite Hi, Hj. Qed.

Lemma nodeSorter_Less_by (s : nodeSorter) (i j : nat) (ni nj : Node) :
  nodes s !! i = Some ni → nodes s !! j = Some nj →
  nodeSorter_Less s i j = Some (by_field s ni nj).
Proof. intros Hi Hj. unfold nodeSorter_Less. by rewrite Hi, Hj. Qed.

Lemma not_after_Transitive (less : Node → Node → bool) :
  StrictWeakOrder less → Transitive (not_after less).
Proof. intros Hless a b c Hab Hbc. exact (swo_incomparable less Hless c b a Hbc Hab). Qed.

Lemma swo_asym (less : Node → Node → bool) (a b : Node) :
  StrictWeakOrder less → less a b = true → less b a = false.
Proof.
  intros Hless Hab. destruct (less b a) eqn:Hba; [|done].
  by rewrite <- (swo_irrefl less Hless a), (swo_trans less Hless a b a Hab Hba).
Qed.

(** [sort.IsSorted] is the adjacent form of sortedness. *)
Lemma IsSorted_Sorted (less : Node → Node → bool) (data : list Node) :
  IsSorted less data = true ↔ Sorted (not_after less) data.
Proof.
  induction data as [|x data IH]; [by split; [constructor|]|].
  destruct data as [|y data].
  - split; [by repeat constructor|done].
  - change (IsSorted less (x :: y :: data))
      with (negb (less y x) && IsSorted less (y :: data)).
    rewrite andb_true_iff, negb_true_iff, IH. split.
    + intros [Hyx Hs]. constructor; [done|]. by constructor.
    + intros Hs. inversion Hs as [|? ? Hs' Hhd]; subst.
      by inversion Hhd; subst.
Qed.

Lemma StronglySorted_lookup (R : relation Node) (data : list Node) (i j : nat) (a b : Node) :
  StronglySorted R data → (i < j)%nat → data !! i = Some a → data !! j = Some b → R a b.
Proof.
  intros Hs. revert i j. induction Hs as [|x data Hs IH Hx]; intros i j Hij Hi Hj; [done|].
  destruct j as [|j]; [lia|]. destruct i as [|i]; simplify_eq/=.
  - eapply Forall_lookup_1; eauto.
  - apply (IH i j); [lia|done..].
Qed.

Lemma IsSorted_OrderedBy (less : Node → Node → bool) (data : list Node) :
  StrictWeakOrder less → IsSorted less data = true → OrderedBy less data.
Proof.
  intros Hless Hs%IsSorted_Sorted i j a b Hij Hi Hj.
  pose proof (not_after_Transitive less Hless) as Htrans.
  apply (Sorted_StronglySorted _) in Hs.
  exact (StronglySorted_lookup _ data i j a b Hs Hij Hi Hj).
Qed.

(** A list with distinct ids holds one node per id. *)
Lemma NoDup_ID_inj (data : list Node) (a b : Node) :
  NoDup (ID <$> data) → a ∈ data → b ∈ data → ID a = ID b → a = b.
Proof.
  induction data as [|x data IH]; [by intros _ ?%elem_of_nil|].
  rewrite fmap_cons, NoDup_cons. intros [Hx Hdata].
  intros [->|Ha]%elem_of_cons [->|Hb]%elem_of_cons Hid; [done|..].
  - destruct Hx. rewrite Hid. by apply list_elem_of_fmap_2.
  - destruct Hx. rewrite <- Hid. by apply list_elem_of_fmap_2.
  - by apply IH.
Qed.

#[local] Instance string_leb_Transitive : Transitive (λ a b : string, String.leb a b = true).
Proof. intros a b c. apply string_leb_trans. Qed.

#[local] Instance string_leb_AntiSymm : AntiSymm (=) (λ a b : string, String.leb a b = true).
Proof. intros a b. apply String.leb_antisym. Qed.

Section SortContract.

(** [sort.Sort] and what its documentation promises: the data is reordered
    (only [Swap] moves it), and it ends up sorted as [sort.IsSorted] checks
    when [Less] is a strict weak ordering.  No stability is promised. *)
Variable sort_Sort : (Node → Node → bool) → list Node → list Node.
Hypothesis sort_Sort_Permutation : ∀ less data, sort_Sort less data ≡ₚ data.
Hypothesis sort_Sort_IsSorted :
  ∀ less data, StrictWeakOrder less → IsSorted less (sort_Sort less data) = true.

Lemma SortNodes_returned (n : list Node) :
  returned (SortNodes sort_Sort n) = sort_Sort LessByID n
  ∧ receiver (SortNodes sort_Sort n) = sort_Sort LessByID n.
Proof. done. Qed.

Lemma SortNodes_Sorted (n : list Node) :
  Sorted (not_after LessByID) (returned (SortNodes sort_Sort n)).
Proof.
  apply IsSorted_Sorted, (sort_Sort_IsSorted LessByID n), LessByID_StrictWeakOrder.
Qed.

Lemma SortNodes_ids_Sorted (n : list Node) :
  Sorted (λ a b : string, String.leb a b = true) (ID <$> returned (SortNodes sort_Sort n)).
Proof.
  eapply Sorted_fmap; [|apply SortNodes_Sorted].
  intros a b Hab. by apply string_ltb_leb.
Qed.



(** C1 (what the code does): [SortByFunc] returns the copy it made before
    sorting, that is the nodes in the order the receiver had, whatever the
    comparison: when the receiver is not sorted by [less], neither is the
    collection returned.  The sort runs on the receiver instead, which ends
    up holding the same nodes ordered by [less]. *)
Theorem SortByFunc_returns_input_order (n : list Node) (less : Node → Node → bool) :
  StrictWeakOrder less →
  returned (SortByFunc sort_Sort n less) = n
  ∧ (IsSorted less n = false → IsSorted less (returned (SortByFunc sort_Sort n less)) = false)
  ∧ IsSorted less (receiver (SortByFunc sort_Sort n less)) = true
  ∧ OrderedBy less (receiver (SortByFunc sort_Sort n less))
  ∧ receiver (SortByFunc sort_Sort n less) ≡ₚ n.
Proof.
  intros Hless.
  assert (IsSorted less (receiver (SortByFunc sort_Sort n less)) = true) as Hsorted
    by (by apply sort_Sort_IsSorted).
  split_and!.
  - done.
  - done.
  - done.
  - by apply IsSorted_OrderedBy.
  - apply sort_Sort_Permutation.
Qed.

End SortContract.

(** Insertion sort keeps the contract of [sort.Sort]. *)
Lemma insertionSort_insert_Permutation (less : Node → Node → bool) (x : Node) (data : list Node) :
  insertionSort_insert less x data ≡ₚ x :: data.
Proof.
  induction data as [|y data IH]; simpl; [done|].
  destruct (less x y); [done|]. rewrite IH. apply Permutation_swap.
Qed.

Lemma insertionSort_Permutation (less : Node → Node → bool) (data : list Node) :
  insertionSort less data ≡ₚ data.
Proof.
  unfold insertionSort.
  assert (∀ sorted, foldl (λ sorted x, insertionSort_insert less x sorted) sorted data
                    ≡ₚ sorted ++ data) as H.
  { induction data as [|x data IH]; intros sorted; simpl.
    - by rewrite app_nil_r.
    - rewrite IH, insertionSort_insert_Permutation. simpl. apply Permutation_middle. }
  by rewrite H.
Qed.

Lemma insertionSort_insert_Sorted (less : Node → Node → bool) (x : Node) (data : list Node) :
  StrictWeakOrder less →
  Sorted (not_after less) data → Sorted (not_after less) (insertionSort_insert less x data).
Proof.
  intros Hless. induction data as [|y data IH]; intros Hs; simpl.
  - by repeat constructor.
  - destruct (less x y) eqn:Hxy.
    + constructor; [done|]. constructor. by apply swo_asym.
    + inversion Hs as [|? ? Hs' Hhd]; subst. constructor; [by apply IH|].
      destruct data as [|z data]; simpl.
      * by constructor.
      * destruct (less x z); constructor; [done|]. by inversion Hhd.
Qed.

Lemma insertionSort_IsSorted (less : Node → Node → bool) (data : list Node) :
  StrictWeakOrder less → IsSorted less (insertionSort less data) = true.
Proof.
  intros Hless. apply IsSorted_Sorted. unfold insertionSort.
  assert (∀ sorted, Sorted (not_after less) sorted →
            Sorted (not_after less)
              (foldl (λ sorted x, insertionSort_insert less x sorted) sorted data)) as H.
  { induction data as [|x data IH]; intros sorted Hs; simpl; [done|].
    by apply IH, insertionSort_insert_Sorted. }
  apply H. constructor.
Qed.

(** The contract alone fixes neither the order of nodes with equal ids nor
    what a second sort does to them: insertion sort run on the reversed
    slice keeps the contract, swaps two nodes of equal id and swaps them
    back when run again. *)
Remark sort_Sort_contract_equal_ids :
  (∀ less data, insertionSort less (reverse data) ≡ₚ data)
  ∧ (∀ less data, StrictWeakOrder less → IsSorted less (insertionSort less (reverse data)) = true)
  ∧ returned (SortNodes (λ less data, insertionSort less (reverse data))
                [NewNode "abcd" "1.2.3.1" None; NewNode "abcd" "1.2.3.2" None])
    = [NewNode "abcd" "1.2.3.2" None; NewNode "abcd" "1.2.3.1" None]
  ∧ returned (SortNodes (λ less data, insertionSort less (reverse data))
                [NewNode "abcd" "1.2.3.2" None; NewNode "abcd" "1.2.3.1" None])
    = [NewNode "abcd" "1.2.3.1" None; NewNode "abcd" "1.2.3.2" None].
Proof.
  split_and!.
  - intros less data. by rewrite insertionSort_Permutation, reverse_Permutation.
  - intros less data Hless. by apply insertionSort_IsSorted.
  - by vm_compute.
  - by vm_compute.
Qed.

(** Two nodes given in descending order of id and sorted by [LessByID]:
    [SortByFunc] returns them in descending order and leaves the receiver
    in ascending order. *)
Lemma SortByFunc_returns_input_order_witness :
  returned (SortByFunc insertionSort
              [NewNode "edfg" "1.2.3.2" None; NewNode "abcd" "1.2.3.1" None] LessByID)
    = [NewNode "edfg" "1.2.3.2" None; NewNode "abcd" "1.2.3.1" None]
  ∧ IsSorted LessByID
      (returned (SortByFunc insertionSort
                   [NewNode "edfg" "1.2.3.2" None; NewNode "abcd" "1.2.3.1" None] LessByID))
    = false
  ∧ IsSorted LessByID
      (receiver (SortByFunc insertionSort
                   [NewNode "edfg" "1.2.3.2" None; NewNode "abcd" "1.2.3.1" None] LessByID))
    = true.
Proof.
  destruct (SortByFunc_returns_input_order insertionSort
              insertionSort_Permutation insertionSort_IsSorted
              [NewNode "edfg" "1.2.3.2" None; NewNode "abcd" "1.2.3.1" None] LessByID
              LessByID_StrictWeakOrder)
    as (Hreturned & Hunsorted & Hreceiver & _).
  split_and!; [exact Hreturned| |exact Hreceiver].
  apply Hunsorted. by vm_compute.
Defined.



(** The test of [SortNodes]: the unsorted nodes come back sorted. *)
Example SortNodes_unsorted_nodes :
  returned (SortNodes insertionSort
    [NewNode "mnop" "1.2.3.4" None; NewNode "igkl" "1.2.3.3" None;
     NewNode "edfg" "1.2.3.2" None; NewNode "abcd" "1.2.3.1" None])
  = [NewNode "abcd" "1.2.3.1" None; NewNode "edfg" "1.2.3.2" None;
     NewNode "igkl" "1.2.3.3" None; NewNode "mnop" "1.2.3.4" None].
Proof. by vm_compute. Qed.

(** ** The node decoder *)

(** The setters used after the address step leave id, ip and port alone. *)
Lemma SetRole_case_address (n : Node) (val : string) :
  ID (SetRole_case n val) = ID n ∧ IP (SetRole_case n val) = IP n
  ∧ Port (SetRole_case n val) = Port n.
Proof.
  unfold SetRole_case.
  by destruct (String.eqb val RedisMasterRole), (String.eqb val RedisSlaveRole).
Qed.

Lemma SetRole_address (n : Node) (flags : string) :
  ID (SetRole n flags) = ID n ∧ IP (SetRole n flags) = IP n ∧ Port (SetRole n flags) = Port n.
Proof.
  unfold SetRole.
  change (ID n) with (ID (set_Role "" n)). change (IP n) with (IP (set_Role "" n)).
  change (Port n) with (Port (set_Role "" n)).
  generalize (set_Role "" n). clear n.
  induction (strings.Split flags comma) as [|val vals IH]; intros n; [done|].
  simpl. destruct (IH (SetRole_case n val)) as (-> & -> & ->).
  apply SetRole_case_address.
Qed.

Lemma SetFailureStatus_case_address (n : Node) (val : string) :
  ID (SetFailureStatus_case n val) = ID n ∧ IP (SetFailureStatus_case n val) = IP n
  ∧ Port (SetFailureStatus_case n val) = Port n.
Proof.
  unfold SetFailureStatus_case.
  by destruct (String.eqb val NodeStatusFail), (String.eqb val NodeStatusPFail),
    (String.eqb val NodeStatusHandshake), (String.eqb val NodeStatusNoAddr),
    (String.eqb val NodeStatusNoFlags).
Qed.

Lemma SetFailureStatus_address (n : Node) (flags : string) :
  ID (SetFailureStatus n flags) = ID n ∧ IP (SetFailureStatus n flags) = IP n
  ∧ Port (SetFailureStatus n flags) = Port n.
Proof.
  unfold SetFailureStatus.
  change (ID n) with (ID (set_FailStatus [] n)). change (IP n) with (IP (set_FailStatus [] n)).
  change (Port n) with (Port (set_FailStatus [] n)).
  generalize (set_FailStatus [] n). clear n.
  induction (strings.Split flags comma) as [|val vals IH]; intros n; [done|].
  simpl. destruct (IH (SetFailureStatus_case n val)) as (-> & -> & ->).
  apply SetFailureStatus_case_address.
Qed.

Lemma SetReferentMaster_address (n : Node) (ref : string) :
  ID (SetReferentMaster n ref) = ID n ∧ IP (SetReferentMaster n ref) = IP n
  ∧ Port (SetReferentMaster n ref) = Port n.
Proof. unfold SetReferentMaster. by destruct (String.eqb ref "-"). Qed.

Lemma SetLinkStatus_address (n : Node) (status : string) :
  ID (SetLinkStatus n status) = ID n ∧ IP (SetLinkStatus n status) = IP n
  ∧ Port (SetLinkStatus n status) = Port n.
Proof.
  unfold SetLinkStatus.
  by destruct (String.eqb status RedisLinkStateConnected),
    (String.eqb status RedisLinkStateDisconnected).
Qed.

Section DecoderProperties.

Variable SplitHostPort : string → string * string * option error.
Variable ParseInt : string → Z * option error.
Variable DecodeSlotRange :
  string → list Slot * option ImportingSlot * option MigratingSlot * option error.

Lemma DecodeNodeInfos_int_address (set : Z → Node → Node) (n : Node) (value : string) :
  (∀ i m, ID (set i m) = ID m ∧ IP (set i m) = IP m ∧ Port (set i m) = Port m) →
  ID (DecodeNodeInfos_int ParseInt set n value) = ID n
  ∧ IP (DecodeNodeInfos_int ParseInt set n value) = IP n
  ∧ Port (DecodeNodeInfos_int ParseInt set n value) = Port n.
Proof.
  intros Hset. unfold DecodeNodeInfos_int.
  destruct (ParseInt value) as [i [e|]]; [done|apply Hset].
Qed.

Lemma DecodeNodeInfos_slot_address (n : Node) (slot : string) :
  ID (DecodeNodeInfos_slot DecodeSlotRange n slot) = ID n
  ∧ IP (DecodeNodeInfos_slot DecodeSlotRange n slot) = IP n
  ∧ Port (DecodeNodeInfos_slot DecodeSlotRange n slot) = Port n.
Proof.
  unfold DecodeNodeInfos_slot.
  by destruct (DecodeSlotRange slot) as [[[s [i|]] [m|]] [e|]].
Qed.

Lemma DecodeNodeInfos_slots_address (slots : list string) (n : Node) :
  ID (foldl (DecodeNodeInfos_slot DecodeSlotRange) n slots) = ID n
  ∧ IP (foldl (DecodeNodeInfos_slot DecodeSlotRange) n slots) = IP n
  ∧ Port (foldl (DecodeNodeInfos_slot DecodeSlotRange) n slots) = Port n.
Proof.
  revert n. induction slots as [|slot slots IH]; intros n; [done|].
  simpl. destruct (IH (DecodeNodeInfos_slot DecodeSlotRange n slot)) as (-> & -> & ->).
  apply DecodeNodeInfos_slot_address.
Qed.

Lemma decoded_without_address_address (v0 v2 v3 v4 v5 v6 v7 : string) (slots : list string) :
  ID (decoded_without_address ParseInt DecodeSlotRange v0 v2 v3 v4 v5 v6 v7 slots) = v0
  ∧ IP (decoded_without_address ParseInt DecodeSlotRange v0 v2 v3 v4 v5 v6 v7 slots) = ""
  ∧ Port (decoded_without_address ParseInt DecodeSlotRange v0 v2 v3 v4 v5 v6 v7 slots) = DefaultRedisPort.
Proof.
  unfold decoded_without_address.
  repeat match goal with
  | |- context [foldl (DecodeNodeInfos_slot DecodeSlotRange) ?n ?l] =>
      destruct (DecodeNodeInfos_slots_address l n) as (-> & -> & ->)
  | |- context [SetLinkStatus ?n ?s] =>
      destruct (SetLinkStatus_address n s) as (-> & -> & ->)
  | |- context [DecodeNodeInfos_int ParseInt ?set ?n ?v] =>
      destruct (DecodeNodeInfos_int_address set n v) as (-> & -> & ->); [done|]
  | |- context [SetReferentMaster ?n ?s] =>
      destruct (SetReferentMaster_address n s) as (-> & -> & ->)
  | |- context [SetFailureStatus ?n ?s] =>
      destruct (SetFailureStatus_address n s) as (-> & -> & ->)
  | |- context [SetRole ?n ?s] =>
      destruct (SetRole_address n s) as (-> & -> & ->)
  end.
  done.
Qed.

(** The loop appends to the nodes and to the log it is given. *)
Lemma DecodeNodeInfos_line_app (st : list Node * list LogEntry) (line : string) :
  DecodeNodeInfos_line SplitHostPort ParseInt DecodeSlotRange st line =
    (st.1 ++ (DecodeNodeInfos_line SplitHostPort ParseInt DecodeSlotRange ([], []) line).1,
     st.2 ++ (DecodeNodeInfos_line SplitHostPort ParseInt DecodeSlotRange ([], []) line).2).
Proof.
  destruct st as [nodes log]. unfold DecodeNodeInfos_line.
  destruct (strings.Split line space) as [|v0 [|v1 [|v2 [|v3 [|v4 [|v5 [|v6 [|v7 slots]]]]]]]];
    try (simpl; by rewrite app_nil_r).
  by destruct (DecodeNodeInfos_addr SplitHostPort (set_ID v0 NewDefaultNode) v1).
Qed.

Lemma DecodeNodeInfos_loop_app (lines : list string) (st : list Node * list LogEntry) :
  foldl (DecodeNodeInfos_line SplitHostPort ParseInt DecodeSlotRange) st lines =
    (st.1 ++ (foldl (DecodeNodeInfos_line SplitHostPort ParseInt DecodeSlotRange) ([], []) lines).1,
     st.2 ++ (foldl (DecodeNodeInfos_line SplitHostPort ParseInt DecodeSlotRange) ([], []) lines).2).
Proof.
  revert st. induction lines as [|line lines IH]; intros st.
  - simpl. rewrite !app_nil_r. by destruct st.
  - simpl foldl. rewrite IH. symmetry. rewrite IH. symmetry.
    rewrite (DecodeNodeInfos_line_app st line). simpl.
    by rewrite <- !(assoc_L (++)).
Qed.

(** A line of at least eight fields whose address does not parse. *)
Lemma DecodeNodeInfos_line_address_failure
    (line v0 v1 v2 v3 v4 v5 v6 v7 : string) (slots : list string)
    (host port : string) (err : error) :
  strings.Split line space = v0 :: v1 :: v2 :: v3 :: v4 :: v5 :: v6 :: v7 :: slots →
  SplitHostPort (hd "" (strings.Split v1 at_sign)) = (host, port, Some err) →
  DecodeNodeInfos_line SplitHostPort ParseInt DecodeSlotRange ([], []) line =
    ([decoded_without_address ParseInt DecodeSlotRange v0 v2 v3 v4 v5 v6 v7 slots],
     [Errorf "Error while decoding node info for node '%s', cannot split ip:port ('%s'): %v"
        [v0; v1; error_String err]]).
Proof.
  intros Hline Haddr. unfold DecodeNodeInfos_line, DecodeNodeInfos_addr.
  by rewrite Hline, Haddr.
Qed.

(** C9 (as amended): when the address field of a line of at least eight
    fields does not parse as host:port (the text before the first [@]
    taken), the failure is logged as an error, and the node of that line
    is still produced, between the nodes of the lines before and the nodes
    of the lines after, which are decoded as they are without that line;
    the node has the id of the line, an empty ip and the default port 6379
    (its address reads [:6379]), and its other fields are decoded as on
    any line. *)
Theorem DecodeNodeInfos_address_failure
    (input : string) (before after : list string)
    (line v0 v1 v2 v3 v4 v5 v6 v7 : string) (slots : list string)
    (host port : string) (err : error) :
  strings.Split input newline = before ++ line :: after →
  strings.Split line space = v0 :: v1 :: v2 :: v3 :: v4 :: v5 :: v6 :: v7 :: slots →
  SplitHostPort (hd "" (strings.Split v1 at_sign)) = (host, port, Some err) →
  ∃ node,
    (DecodeNodeInfos SplitHostPort ParseInt DecodeSlotRange input).1 =
      (foldl (DecodeNodeInfos_line SplitHostPort ParseInt DecodeSlotRange) ([], []) before).1
      ++ node
      :: (foldl (DecodeNodeInfos_line SplitHostPort ParseInt DecodeSlotRange) ([], []) after).1
    ∧ (DecodeNodeInfos SplitHostPort ParseInt DecodeSlotRange input).2 =
        (foldl (DecodeNodeInfos_line SplitHostPort ParseInt DecodeSlotRange) ([], []) before).2
        ++ Errorf "Error while decoding node info for node '%s', cannot split ip:port ('%s'): %v"
             [v0; v1; error_String err]
        :: (foldl (DecodeNodeInfos_line SplitHostPort ParseInt DecodeSlotRange) ([], []) after).2
    ∧ ID node = v0 ∧ IP node = "" ∧ Port node = "6379" ∧ IPPort node = ":6379"
    ∧ node = decoded_without_address ParseInt DecodeSlotRange v0 v2 v3 v4 v5 v6 v7 slots.
Proof.
  intros Hinput Hline Haddr.
  exists (decoded_without_address ParseInt DecodeSlotRange v0 v2 v3 v4 v5 v6 v7 slots).
  unfold DecodeNodeInfos. rewrite Hinput, foldl_app. simpl foldl.
  rewrite DecodeNodeInfos_loop_app, DecodeNodeInfos_line_app.
  rewrite (DecodeNodeInfos_line_address_failure line v0 v1 v2 v3 v4 v5 v6 v7 slots host port err
             Hline Haddr).
  simpl. rewrite <- !(assoc_L (++)). simpl.
  destruct (decoded_without_address_address v0 v2 v3 v4 v5 v6 v7 slots) as (Hid & Hip & Hport).
  split_and!; try done.
  unfold IPPort. by rewrite Hip, Hport.
Qed.

End DecoderProperties.

(** C9 (as amended), on a node list whose first line has an IPv6 address
    without brackets, which [net.SplitHostPort] refuses. *)
Lemma DecodeNodeInfos_address_failure_witness :
  ∃ node,
    (DecodeNodeInfos net.SplitHostPort strconv.ParseInt DecodeSlotRange_reject
       ("abcd ::1:6379@16379 master - 0 0 1 connected"
        +:+ String newline "edfg 1.2.3.2:6379@16379 slave abcd 0 0 1 connected")).1 =
      (foldl (DecodeNodeInfos_line net.SplitHostPort strconv.ParseInt DecodeSlotRange_reject)
         ([], []) []).1
      ++ node
      :: (foldl (DecodeNodeInfos_line net.SplitHostPort strconv.ParseInt DecodeSlotRange_reject)
            ([], []) ["edfg 1.2.3.2:6379@16379 slave abcd 0 0 1 connected"]).1
    ∧ (DecodeNodeInfos net.SplitHostPort strconv.ParseInt DecodeSlotRange_reject
         ("abcd ::1:6379@16379 master - 0 0 1 connected"
          +:+ String newline "edfg 1.2.3.2:6379@16379 slave abcd 0 0 1 connected")).2 =
        (foldl (DecodeNodeInfos_line net.SplitHostPort strconv.ParseInt DecodeSlotRange_reject)
           ([], []) []).2
        ++ Errorf "Error while decoding node info for node '%s', cannot split ip:port ('%s'): %v"
             ["abcd"; "::1:6379@16379";
              error_String (Err "address ::1:6379: too many colons in address")]
        :: (foldl (DecodeNodeInfos_line net.SplitHostPort strconv.ParseInt DecodeSlotRange_reject)
              ([], []) ["edfg 1.2.3.2:6379@16379 slave abcd 0 0 1 connected"]).2
    ∧ ID node = "abcd" ∧ IP node = "" ∧ Port node = "6379" ∧ IPPort node = ":6379"
    ∧ node = decoded_without_address strconv.ParseInt DecodeSlotRange_reject
               "abcd" "master" "-" "0" "0" "1" "connected" [].
Proof.
  apply (DecodeNodeInfos_address_failure net.SplitHostPort strconv.ParseInt DecodeSlotRange_reject
           ("abcd ::1:6379@16379 master - 0 0 1 connected"
            +:+ String newline "edfg 1.2.3.2:6379@16379 slave abcd 0 0 1 connected")
           [] ["edfg 1.2.3.2:6379@16379 slave abcd 0 0 1 connected"]
           "abcd ::1:6379@16379 master - 0 0 1 connected"
           "abcd" "::1:6379@16379" "master" "-" "0" "0" "1" "connected" [] "" "").
  - by vm_compute.
  - by vm_compute.
  - by vm_compute.
Defined.

(** C9 (as stated) fails: the node of a line whose address does not parse
    has the default port, not an empty address; the next line is decoded. *)
Lemma DecodeNodeInfos_address_failure_port :
  (net.SplitHostPort "::1:6379").2 = Some (Err "address ::1:6379: too many colons in address")
  ∧ Port <$> (DecodeNodeInfos net.SplitHostPort strconv.ParseInt DecodeSlotRange_reject
       ("abcd ::1:6379@16379 master - 0 0 1 connected"
        +:+ String newline "edfg 1.2.3.2:6379@16379 slave abcd 0 0 1 connected")).1
      = ["6379"; "6379"]
  ∧ IPPort <$> (DecodeNodeInfos net.SplitHostPort strconv.ParseInt DecodeSlotRange_reject
       ("abcd ::1:6379@16379 master - 0 0 1 connected"
        +:+ String newline "edfg 1.2.3.2:6379@16379 slave abcd 0 0 1 connected")).1
      = [":6379"; "1.2.3.2:6379"]
  ∧ ¬ (∀ node,
         node ∈ (DecodeNodeInfos net.SplitHostPort strconv.ParseInt DecodeSlotRange_reject
                   ("abcd ::1:6379@16379 master - 0 0 1 connected"
                    +:+ String newline "edfg 1.2.3.2:6379@16379 slave abcd 0 0 1 connected")).1 →
         ID node = "abcd" → IP node = "" ∧ Port node = "").
Proof.
  split_and!; [by vm_compute..|].
  intros H.
  destruct (H (decoded_without_address strconv.ParseInt DecodeSlotRange_reject
                 "abcd" "master" "-" "0" "0" "1" "connected" [])) as [_ Hport].
  - vm_compute. by left.
  - done.
  - by vm_compute in Hport.
Qed.

(** ** The admin façade *)

Section AdminProperties.

Variable ParseRedisMemConf : string → string * option error.
Variable ConfigSet_Err : Client → string → string → option error.

(** A key of [parseConfigMap] whose value is refused: the loop logs and
    goes on with the next pair; nothing is sent for the key. *)
Lemma SetRedisConfig_range_refused (key value : string) (rest : list (string * string))
    (master : Client) (log : list LogEntry) :
  refused ParseRedisMemConf (key, value) = true →
  SetRedisConfig_range ParseRedisMemConf ConfigSet_Err ((key, value) :: rest) master log =
    SetRedisConfig_range ParseRedisMemConf ConfigSet_Err rest master
      (log ++ [refused_entry ParseRedisMemConf (key, value)]).
Proof.
  unfold refused, refused_entry. simpl.
  destruct (parseConfigMap !! key); [|done].
  destruct (ParseRedisMemConf value) as [value_inner [e|]]; [done|].
  intros H%bool_decide_eq_true. by destruct H.
Qed.

(** Any other pair: [CONFIG SET] is sent with the key and the value of the
    mapping, whatever [ParseRedisMemConf] made of the value. *)
Lemma SetRedisConfig_range_sent (key value : string) (rest : list (string * string))
    (master : Client) (log : list LogEntry) :
  refused ParseRedisMemConf (key, value) = false →
  SetRedisConfig_range ParseRedisMemConf ConfigSet_Err ((key, value) :: rest) master log =
    match ConfigSet_Err master key value with
    | Some e =>
        {| client := {| Addr := Addr master; sent := sent master ++ [(key, value)] |};
           logged := log; err := Some e |}
    | None =>
        SetRedisConfig_range ParseRedisMemConf ConfigSet_Err rest
          {| Addr := Addr master; sent := sent master ++ [(key, value)] |} log
    end.
Proof.
  unfold refused. simpl.
  destruct (parseConfigMap !! key).
  - destruct (ParseRedisMemConf value) as [value_inner [e|]]; simpl.
    + done.
    + intros _. by destruct (ConfigSet_Err master key value).
  - intros _. by destruct (ConfigSet_Err master key value).
Qed.

(** On a transport without failure the loop sends every pair that is not
    refused, in order and with the value of the mapping, logs the refused
    ones and gives no error: a refused value skips its own key only. *)
Lemma SetRedisConfig_range_applied (kvs : list (string * string)) (master : Client)
    (log : list LogEntry) :
  (∀ m k v, ConfigSet_Err m k v = None) →
  SetRedisConfig_range ParseRedisMemConf ConfigSet_Err kvs master log =
    {| client := {| Addr := Addr master;
                    sent := sent master
                            ++ filter (λ kv, refused ParseRedisMemConf kv = false) kvs |};
       logged := log ++ (refused_entry ParseRedisMemConf
                           <$> filter (λ kv, refused ParseRedisMemConf kv = true) kvs);
       err := None |}.
Proof.
  intros Hok. revert master log. induction kvs as [|[key value] kvs IH]; intros master log.
  - rewrite !filter_nil. simpl. rewrite !app_nil_r. by destruct master.
  - rewrite !filter_cons. destruct (refused ParseRedisMemConf (key, value)) eqn:E.
    + rewrite SetRedisConfig_range_refused, IH by done.
      rewrite decide_False, decide_True by done.
      simpl. by rewrite <- (assoc_L (++)).
    + rewrite SetRedisConfig_range_sent, Hok, IH by done.
      rewrite decide_True, decide_False by done.
      simpl. by rewrite <- (assoc_L (++)).
Qed.

Lemma ForEachMaster_outcomes (masters : list Client) (fn : Client → Outcome) :
  (ForEachMaster masters fn).1 = fn <$> masters.
Proof. done. Qed.

Lemma ForEachMaster_no_error (masters : list Client) (fn : Client → Outcome) :
  (∀ master, err (fn master) = None) → (ForEachMaster masters fn).2 = None.
Proof.
  intros Hfn. unfold ForEachMaster. simpl.
  destruct (list_find _ _) as [[i e]|] eqn:E; [|done].
  apply list_find_Some in E as (Hi & He & _).
  rewrite <- list_fmap_compose in Hi.
  apply list_lookup_fmap_Some in Hi as (master & -> & _).
  simpl in He. rewrite Hfn in He. by destruct He.
Qed.

(** C2 (what the code does): on a transport without failure
    [SetConfigIfNeed] sends to every master one [CONFIG SET] for every pair
    of the mapping that is not refused, with the value of the mapping as it
    is, and logs the refused pairs; so for a key of [parseConfigMap] whose
    value [ParseRedisMemConf] accepts, the master is sent the value of the
    mapping: the byte count [ParseRedisMemConf] computed lives only inside
    the [if] block and is never sent. *)
Theorem SetConfigIfNeed_sends_raw_value
    (masters : list Client) (newConfig : list (string * string)) :
  (∀ master k v, ConfigSet_Err master k v = None) →
  SetConfigIfNeed ParseRedisMemConf ConfigSet_Err masters newConfig =
    ((λ master,
        {| client := {| Addr := Addr master;
                        sent := sent master
                                ++ filter (λ kv, refused ParseRedisMemConf kv = false) newConfig |};
           logged := refused_entry ParseRedisMemConf
                       <$> filter (λ kv, refused ParseRedisMemConf kv = true) newConfig;
           err := None |}) <$> masters,
     None)
  ∧ (∀ key value normalized z,
       (key, value) ∈ newConfig → parseConfigMap !! key = Some z →
       ParseRedisMemConf value = (normalized, None) →
       (key, value) ∈ filter (λ kv, refused ParseRedisMemConf kv = false) newConfig)
  ∧ (∀ kv, kv ∈ filter (λ kv, refused ParseRedisMemConf kv = false) newConfig → kv ∈ newConfig).
Proof.
  intros Hok. split_and!.
  - assert (∀ master,
              SetRedisConfig_range ParseRedisMemConf ConfigSet_Err newConfig master [] =
                {| client := {| Addr := Addr master;
                                sent := sent master
                                        ++ filter (λ kv, refused ParseRedisMemConf kv = false)
                                             newConfig |};
                   logged := refused_entry ParseRedisMemConf
                               <$> filter (λ kv, refused ParseRedisMemConf kv = true) newConfig;
                   err := None |}) as Hmaster.
    { intros master. by rewrite SetRedisConfig_range_applied. }
    unfold SetConfigIfNeed.
    rewrite (surjective_pairing (ForEachMaster _ _)). f_equal.
    + rewrite ForEachMaster_outcomes. apply list_fmap_ext. intros i master _. apply Hmaster.
    + apply ForEachMaster_no_error. intros master. by rewrite Hmaster.
  - intros key value normalized z Hin Hkey Hparse.
    apply list_elem_of_filter. split; [|done].
    unfold refused. simpl. by rewrite Hkey, Hparse.
  - by intros kv [_ Hin]%list_elem_of_filter.
Qed.

End AdminProperties.

(** One master, and a mapping with [maxmemory] set to [1gb], a size that
    does not parse and a key that is no size: the master is sent [1gb], not
    the 1073741824 bytes it stands for; the key of the bad size is skipped
    and logged, the last key is still sent. *)
Lemma SetConfigIfNeed_sends_raw_value_witness :
  utils.ParseRedisMemConf "1gb" = ("1073741824", None)
  ∧ SetConfigIfNeed utils.ParseRedisMemConf ConfigSet_ok
      [{| Addr := "1.2.3.1:6379"; sent := [] |}]
      [("maxmemory", "1gb"); ("hll-sparse-max-bytes", "zz"); ("appendonly", "yes")] =
    ([{| client := {| Addr := "1.2.3.1:6379";
                      sent := [("maxmemory", "1gb"); ("appendonly", "yes")] |};
         logged := [Errorf "redis config format err, key: %s, value: %s, err: %v"
                      ["hll-sparse-max-bytes"; ""; "invalid memory size: zz"]];
         err := None |}],
     None).
Proof.
  split; [by vm_compute|].
  destruct (SetConfigIfNeed_sends_raw_value utils.ParseRedisMemConf ConfigSet_ok
              [{| Addr := "1.2.3.1:6379"; sent := [] |}]
              [("maxmemory", "1gb"); ("hll-sparse-max-bytes", "zz"); ("appendonly", "yes")])
    as [-> _]; [done|].
  by vm_compute.
Defined.

(** * Further properties *)

(** ** The node model, continued *)

Lemma set_Role_id (n : Node) : set_Role (Role n) n = n.
Proof. by destruct n. Qed.

Lemma set_FailStatus_id (n : Node) : set_FailStatus (FailStatus n) n = n.
Proof. by destruct n. Qed.

Lemma SetRole_case_set (n : Node) (val : string) :
  SetRole_case n val = if bool_decide (val ∈ RoleFlags) then set_Role val n else n.
Proof.
  unfold SetRole_case, RoleFlags.
  destruct (String.eqb_spec val RedisMasterRole) as [->|Hm]; [done|].
  destruct (String.eqb_spec val RedisSlaveRole) as [->|Hs]; [done|].
  rewrite bool_decide_eq_false_2; [done|].
  rewrite !elem_of_cons, elem_of_nil. tauto.
Qed.

Lemma SetRole_loop_set (vals : list string) (n : Node) :
  foldl SetRole_case n vals =
    set_Role (default (Role n) (last (filter (λ val, val ∈ RoleFlags) vals))) n.
Proof.
  induction vals as [|val vals IH] using rev_ind.
  - simpl. by rewrite set_Role_id.
  - rewrite foldl_snoc, IH, SetRole_case_set, filter_app, filter_cons, filter_nil.
    case_bool_decide as Hval.
    + rewrite decide_True by done. by rewrite last_snoc.
    + rewrite decide_False by done. by rewrite app_nil_r.
Qed.

Lemma SetRole_set (n : Node) (flags : string) :
  SetRole n flags = set_Role (role_of_flags flags) n.
Proof. unfold SetRole. by rewrite SetRole_loop_set. Qed.

Lemma role_of_flags_cases (flags : string) :
  role_of_flags flags = "" ∨ role_of_flags flags ∈ RoleFlags.
Proof.
  unfold role_of_flags.
  destruct (last (filter (λ val, val ∈ RoleFlags) (strings.Split flags comma)))
    as [role|] eqn:E; [right|by left].
  apply last_Some_elem_of, list_elem_of_filter in E. by destruct E.
Qed.

(** X1: [SetRole] changes the role and nothing else; the role it leaves is
    the last of the comma-separated values that is master or slave, and the
    empty string when there is none.  So a role flag put at the end of the
    flags wins over every flag before it, and a value that is no role flag
    put at the end changes nothing. *)
Theorem SetRole_last_role_flag (n : Node) (flags : string) :
  SetRole n flags = set_Role (role_of_flags flags) n
  ∧ Role (SetRole n flags) ∈ [""; "master"; "slave"]
  ∧ (∀ role, role ∈ ["master"; "slave"] →
       Role (SetRole n (flags +:+ String comma role)) = role)
  ∧ (∀ val, val ∉ ["master"; "slave"] → strings.Contains val comma = false →
       SetRole n (flags +:+ String comma val) = SetRole n flags).
Proof.
  split_and!.
  - apply SetRole_set.
  - rewrite SetRole_set. simpl.
    destruct (role_of_flags_cases flags) as [->|H]; [by left|by right].
  - intros role Hrole. rewrite SetRole_set. simpl. unfold role_of_flags.
    rewrite Split_app, filter_app.
    assert (strings.Split role comma = [role]) as ->.
    { apply elem_of_cons in Hrole as [->|Hrole]; [done|].
      by apply list_elem_of_singleton in Hrole as ->. }
    rewrite filter_cons, filter_nil, decide_True by done.
    by rewrite last_snoc.
  - intros val Hval Hcomma. rewrite !SetRole_set. f_equal. unfold role_of_flags.
    rewrite Split_app, filter_app, (Split_no_sep val comma Hcomma).
    rewrite filter_cons, filter_nil, decide_False by done.
    by rewrite app_nil_r.
Qed.

Lemma SetFailureStatus_set (n : Node) (flags : string) :
  SetFailureStatus n flags = set_FailStatus (failures_of_flags flags) n.
Proof.
  unfold SetFailureStatus, failures_of_flags.
  assert (∀ vals m, foldl SetFailureStatus_case m vals =
            set_FailStatus (FailStatus m ++ filter (λ val, val ∈ FailureFlags) vals) m) as H.
  { induction vals as [|val vals IH] using rev_ind; intros m.
    - rewrite filter_nil, app_nil_r. simpl. by rewrite set_FailStatus_id.
    - rewrite foldl_snoc, IH, filter_app, filter_cons, filter_nil.
      unfold SetFailureStatus_case, FailureFlags.
      destruct (String.eqb_spec val NodeStatusFail) as [->|H1];
        [by rewrite (assoc_L (++))|].
      destruct (String.eqb_spec val NodeStatusPFail) as [->|H2];
        [by rewrite (assoc_L (++))|].
      destruct (String.eqb_spec val NodeStatusHandshake) as [->|H3];
        [by rewrite (assoc_L (++))|].
      destruct (String.eqb_spec val NodeStatusNoAddr) as [->|H4];
        [by rewrite (assoc_L (++))|].
      destruct (String.eqb_spec val NodeStatusNoFlags) as [->|H5];
        [by rewrite (assoc_L (++))|].
      rewrite decide_False; [by rewrite app_nil_r|].
      rewrite !elem_of_cons, elem_of_nil. tauto. }
  by rewrite H.
Qed.

(** X2: [SetFailureStatus] changes the failure status and nothing else, and
    afterwards [HasStatus] answers true for a flag exactly when the flag is
    one of the five failure flags and one of the comma-separated values of
    the flags string; in particular it is false for master, slave and
    myself. *)
Theorem HasStatus_SetFailureStatus (n : Node) (flags flag : string) :
  SetFailureStatus n flags = set_FailStatus (failures_of_flags flags) n
  ∧ (HasStatus (SetFailureStatus n flags) flag = true ↔
       flag ∈ ["fail"; "fail?"; "handshake"; "noaddr"; "noflags"]
       ∧ flag ∈ strings.Split flags comma)
  ∧ HasStatus (SetFailureStatus n flags) "master" = false
  ∧ HasStatus (SetFailureStatus n flags) "slave" = false
  ∧ HasStatus (SetFailureStatus n flags) "myself" = false.
Proof.
  assert (∀ f, HasStatus (SetFailureStatus n flags) f = true ↔
            f ∈ FailureFlags ∧ f ∈ strings.Split flags comma) as H.
  { intros f. rewrite HasStatus_elem_of, SetFailureStatus_set. simpl.
    unfold failures_of_flags. by rewrite list_elem_of_filter. }
  split_and!.
  - apply SetFailureStatus_set.
  - apply H.
  - apply not_true_is_false. rewrite H. by intros [?%(bool_decide_pack _) _].
  - apply not_true_is_false. rewrite H. by intros [?%(bool_decide_pack _) _].
  - apply not_true_is_false. rewrite H. by intros [?%(bool_decide_pack _) _].
Qed.

(** X3: on a node whose role field is neither master nor slave,
    [SetReferentMaster] decides the role [GetRole] gives: slave exactly when
    the referent is neither the dash nor empty; the dash and the empty
    string both leave the node without referent. *)
Theorem GetRole_SetReferentMaster (n : Node) (ref : string) :
  Role n ≠ "master" → Role n ≠ "slave" →
  (GetRole (SetReferentMaster n ref) = "slave" ↔ ref ≠ "-" ∧ ref ≠ "")
  ∧ (MasterReferent (SetReferentMaster n ref) = "" ↔ ref = "-" ∨ ref = "")
  ∧ (ref ≠ "-" → MasterReferent (SetReferentMaster n ref) = ref)
  ∧ Slots (SetReferentMaster n ref) = Slots n
  ∧ Role (SetReferentMaster n ref) = Role n.
Proof.
  intros Hm Hs.
  assert (MasterReferent (SetReferentMaster n ref) = "" ↔ ref = "-" ∨ ref = "") as Href.
  { unfold SetReferentMaster.
    destruct (String.eqb_spec ref "-") as [->|Hne]; simpl; [tauto|].
    split; [by right|]. by intros [?|?]. }
  assert (Role (SetReferentMaster n ref) = Role n) as HRole.
  { unfold SetReferentMaster. by destruct (String.eqb ref "-"). }
  assert (Slots (SetReferentMaster n ref) = Slots n) as HSlots.
  { unfold SetReferentMaster. by destruct (String.eqb ref "-"). }
  split_and!; try done.
  - unfold GetRole. rewrite HRole, HSlots.
    unfold RedisMasterRole, RedisSlaveRole.
    destruct (String.eqb_spec (Role n) "master"); [done|].
    destruct (String.eqb_spec (Role n) "slave"); [done|].
    destruct (String.eqb_spec (MasterReferent (SetReferentMaster n ref)) "") as [E|E]; simpl.
    + apply Href in E. split.
      * by destruct (0 <? length (Slots n))%nat.
      * intros [? ?]. tauto.
    + split; [|done]. intros _. split; intros ->; apply E, Href; tauto.
  - intros Hne. unfold SetReferentMaster.
    by destruct (String.eqb_spec ref "-").
Qed.

(** A node decoded without role flag that follows the master abcd. *)
Lemma GetRole_SetReferentMaster_witness :
  GetRole (SetReferentMaster NewDefaultNode "abcd") = "slave"
  ∧ MasterReferent (SetReferentMaster NewDefaultNode "abcd") = "abcd".
Proof.
  destruct (GetRole_SetReferentMaster NewDefaultNode "abcd") as (HRole & _ & HRef & _);
    [done..|].
  split; [by apply HRole|by apply HRef].
Defined.

(** X4: [GetRole] gives master, slave or none and nothing else, whatever
    the role field holds.  The three tests on a node read it: [IsSlave] is
    the role slave, [IsMasterWithSlot] the role master with a slot, and
    [IsMasterWithNoSlot] holds only for a node whose role field itself is
    master and that has no slot (a role inferred from slots never gives
    it); no two of them hold together, and none holds exactly when the role
    is none. *)
Theorem role_tests (n : Node) :
  GetRole n ∈ ["master"; "slave"; "none"]
  ∧ (IsSlave n = true ↔ GetRole n = "slave")
  ∧ (IsMasterWithSlot n = true ↔ GetRole n = "master" ∧ Slots n ≠ [])
  ∧ (IsMasterWithNoSlot n = true ↔ Role n = "master" ∧ Slots n = [])
  ∧ ¬ (IsSlave n = true ∧ IsMasterWithSlot n = true)
  ∧ ¬ (IsSlave n = true ∧ IsMasterWithNoSlot n = true)
  ∧ ¬ (IsMasterWithSlot n = true ∧ IsMasterWithNoSlot n = true)
  ∧ (IsSlave n = false ∧ IsMasterWithSlot n = false ∧ IsMasterWithNoSlot n = false
     ↔ GetRole n = "none").
Proof.
  unfold IsSlave, IsMasterWithSlot, IsMasterWithNoSlot, TotalSlots, GetRole,
    RedisMasterRole, RedisSlaveRole.
  destruct (String.eqb_spec (Role n) "master") as [Hm|Hm];
    destruct (String.eqb_spec (Role n) "slave") as [Hs|Hs];
    destruct (String.eqb_spec (MasterReferent n) "") as [Hr|Hr];
    destruct (Slots n) as [|slot slots] eqn:Hslots; simpl;
    split_and!; try done; try (by apply (bool_decide_unpack _));
    try (split; [by intros [? ?]|by intros ?]); try (by intros [? ?]);
    try (split; [by intros ?|by intros [? ?]]);
    try (split; [by intros (? & ? & ?)|by intros ?]).
Qed.

(** ** The node collection, continued *)

Lemma filter_all_iff {A} (P : A → Prop) `{∀ x, Decision (P x)} (l : list A) :
  length (filter P l) = length l ↔ ∀ x, x ∈ l → P x.
Proof.
  induction l as [|x l IH]; [by split; [intros _ ? ?%elem_of_nil|]|].
  rewrite filter_cons. destruct (decide (P x)) as [HP|HP]; simpl.
  - split.
    + intros Hlen y [->|Hy]%elem_of_cons; [done|]. apply IH; [lia|done].
    + intros Hall. f_equal. apply IH. intros y Hy. apply Hall. by right.
  - split.
    + intros Hlen. pose proof (length_filter P l). lia.
    + intros Hall. destruct HP. apply Hall. by left.
Qed.

Lemma filter_all {A} (P : A → Prop) `{∀ x, Decision (P x)} (l : list A) :
  (∀ x, x ∈ l → P x) → filter P l = l.
Proof.
  induction l as [|x l IH]; intros Hl; [done|].
  rewrite filter_cons, decide_True by (apply Hl; by left).
  f_equal. apply IH. intros y Hy. apply Hl. by right.
Qed.

(** X5: [CountByFunc] gives the number of nodes [FilterByFunc] and
    [GetNodesByFunc] give; it is zero exactly when [GetNodesByFunc] gives
    its error, lies between zero and the size of the collection, reaches
    the size exactly when every node passes the test, and adds up over
    appended collections. *)
Theorem CountByFunc_counts (n n2 : list Node) (fn : Node → bool) :
  CountByFunc n fn = Z.of_nat (length (FilterByFunc n fn))
  ∧ CountByFunc n fn = Z.of_nat (length (GetNodesByFunc n fn).1)
  ∧ ((GetNodesByFunc n fn).2 = Some nodeNotFoundedError ↔ CountByFunc n fn = 0)
  ∧ 0 ≤ CountByFunc n fn ≤ Z.of_nat (length n)
  ∧ (CountByFunc n fn = Z.of_nat (length n) ↔ ∀ node, node ∈ n → fn node = true)
  ∧ CountByFunc (n ++ n2) fn = CountByFunc n fn + CountByFunc n2 fn.
Proof.
  rewrite !CountByFunc_length, FilterByFunc_filter, GetNodesByFunc_filter. simpl.
  pose proof (length_filter (λ node, fn node = true) n) as Hle.
  split_and!; try done; try lia.
  - case_decide as E.
    + rewrite E. done.
    + split; [done|]. intros Hlen. destruct E.
      apply nil_length_inv. lia.
  - rewrite <- (filter_all_iff (λ node, fn node = true) n). lia.
  - rewrite filter_app, length_app. lia.
Qed.

(** X6: a node [GetNodeByID] gives is a node of the collection with the id
    asked for; in a collection with distinct ids every node is found again
    by its own id. *)
Theorem GetNodeByID_round_trip (n : list Node) :
  (∀ id node, GetNodeByID n id = (Some node, None) → node ∈ n ∧ ID node = id)
  ∧ (NoDup (ID <$> n) → ∀ node, node ∈ n → GetNodeByID n (ID node) = (Some node, None)).
Proof.
  split.
  - intros id node (before & after & -> & Hid & _)%GetNodeByID_found.
    split; [|done]. apply elem_of_app. right. by left.
  - intros Hids node Hnode.
    destruct (GetNodeByID_total n (ID node)) as [E|[found E]].
    + destruct (proj1 (GetNodeByID_not_found n (ID node)) E node Hnode). done.
    + rewrite E. do 2 f_equal.
      apply GetNodeByID_found in E as (before & after & -> & Hid & _).
      apply (NoDup_ID_inj (before ++ found :: after)); [done| |done..].
      apply elem_of_app. right. by left.
Qed.

(** The three nodes of the test of [GetNodeByID]. *)
Lemma GetNodeByID_round_trip_witness :
  GetNodeByID
    [set_ID "A" zeroNode; set_Role "slave" (set_ID "B" zeroNode); set_ID "C" zeroNode]
    (ID (set_Role "slave" (set_ID "B" zeroNode)))
  = (Some (set_Role "slave" (set_ID "B" zeroNode)), None).
Proof.
  destruct (GetNodeByID_round_trip
              [set_ID "A" zeroNode; set_Role "slave" (set_ID "B" zeroNode); set_ID "C" zeroNode])
    as [_ H].
  apply H; [compute_done|]. apply elem_of_cons. right. by left.
Defined.

Lemma GetNodeByAddr_found (n : list Node) (addr : string) (node : Node) :
  GetNodeByAddr n addr = (Some node, None) ↔
  ∃ before after, n = before ++ node :: after ∧ IPPort node = addr
                  ∧ ∀ other, other ∈ before → IPPort other ≠ addr.
Proof.
  unfold IPPort. induction n as [|x n IH]; simpl.
  - split; [done|]. intros (before & after & E & _). by destruct before.
  - destruct (String.eqb_spec (JoinHostPort (IP x) (Port x)) addr) as [Hx|Hx].
    + split.
      * intros [= ->]. exists [], n. split_and!; [done..|]. by intros other ?%elem_of_nil.
      * intros (before & after & E & Hid & Hbefore).
        destruct before as [|y before]; simplify_eq/=; [done|].
        destruct (Hbefore y); [by left|done].
    + rewrite IH. split.
      * intros (before & after & -> & Hid & Hbefore).
        exists (x :: before), after. split_and!; [done..|].
        intros other [->|?]%elem_of_cons; [done|by apply Hbefore].
      * intros (before & after & E & Hid & Hbefore).
        destruct before as [|y before]; simplify_eq/=.
        exists before, after. split_and!; [done..|].
        intros other ?. apply Hbefore. by right.
Qed.

Lemma GetNodeByAddr_not_found (n : list Node) (addr : string) :
  GetNodeByAddr n addr = (None, Some nodeNotFoundedError) ↔
  ∀ node, node ∈ n → IPPort node ≠ addr.
Proof.
  unfold IPPort. induction n as [|x n IH]; simpl.
  - split; [|done]. by intros _ node ?%elem_of_nil.
  - destruct (String.eqb_spec (JoinHostPort (IP x) (Port x)) addr) as [Hx|Hx].
    + split; [done|]. intros Hn. destruct (Hn x); [by left|done].
    + rewrite IH. split.
      * intros Hn node [->|?]%elem_of_cons; [done|by apply Hn].
      * intros Hn node ?. apply Hn. by right.
Qed.

(** X7: [GetNodeByAddr] gives the first node whose ip and port, joined as
    [IPPort] joins them, are the address, and [nodeNotFoundedError] exactly
    when there is none; one of the two always happens.  A node made by
    [NewNode] with an ip free of colons is found under that ip and the
    default port 6379. *)
Theorem GetNodeByAddr_first (n : list Node) (addr : string) :
  (∀ node, GetNodeByAddr n addr = (Some node, None) ↔
     ∃ before after, n = before ++ node :: after ∧ IPPort node = addr
                     ∧ ∀ other, other ∈ before → IPPort other ≠ addr)
  ∧ (GetNodeByAddr n addr = (None, Some nodeNotFoundedError) ↔
     ∀ node, node ∈ n → IPPort node ≠ addr)
  ∧ (GetNodeByAddr n addr = (None, Some nodeNotFoundedError)
     ∨ ∃ node, GetNodeByAddr n addr = (Some node, None))
  ∧ (∀ id ip pod, strings.Contains ip colon = false →
       GetNodeByAddr (NewNode id ip pod :: n) (ip +:+ ":6379")
         = (Some (NewNode id ip pod), None)).
Proof.
  split_and!.
  - intros node. apply GetNodeByAddr_found.
  - apply GetNodeByAddr_not_found.
  - induction n as [|x n IH]; simpl; [by left|].
    destruct (String.eqb (JoinHostPort (IP x) (Port x)) addr); [right; by exists x|done].
  - intros id ip pod Hip. simpl. unfold JoinHostPort. rewrite Hip.
    by rewrite String.eqb_refl.
Qed.

(** X8: [FilterByFunc] keeps exactly the nodes that pass the test, in the
    order they had.  Filtering twice is filtering by both tests, in either
    order; filtering again by the same test changes nothing; an appended
    collection is filtered part by part; and the result is the whole
    collection exactly when every node passes. *)
Theorem FilterByFunc_algebra (n n2 : list Node) (f g : Node → bool) :
  FilterByFunc (FilterByFunc n f) g = FilterByFunc n (both f g)
  ∧ FilterByFunc (FilterByFunc n f) g = FilterByFunc (FilterByFunc n g) f
  ∧ FilterByFunc (FilterByFunc n f) f = FilterByFunc n f
  ∧ FilterByFunc (n ++ n2) f = FilterByFunc n f ++ FilterByFunc n2 f
  ∧ FilterByFunc n f `sublist_of` n
  ∧ (∀ node, node ∈ FilterByFunc n f ↔ node ∈ n ∧ f node = true)
  ∧ (FilterByFunc n f = n ↔ ∀ node, node ∈ n → f node = true).
Proof.
  rewrite !FilterByFunc_filter.
  split_and!.
  - rewrite list_filter_filter. apply list_filter_iff. intros node. unfold both.
    rewrite andb_true_iff. tauto.
  - rewrite !list_filter_filter. apply list_filter_iff. intros node. tauto.
  - apply list_filter_filter_l. done.
  - apply filter_app.
  - apply sublist_filter.
  - intros node. rewrite list_elem_of_filter. tauto.
  - split.
    + intros E. apply (filter_all_iff (λ node, f node = true) n). by rewrite E.
    + apply filter_all.
Qed.

(** ** Comparing and swapping *)

(** X9: the ids of two nodes are in exactly one of three relations: the
    first is less, they are equal, or the second is less; [MoreByID] is
    [LessByID] with the nodes exchanged, both are strict weak orderings as
    [sort.Sort] needs, and [Less] of [Nodes] is [LessByID] on the elements
    at the two indices, panicking exactly when an index is out of range. *)
Theorem LessByID_order (n1 n2 : Node) :
  (LessByID n1 n2 = true ∧ ID n1 ≠ ID n2 ∧ LessByID n2 n1 = false
   ∨ LessByID n1 n2 = false ∧ ID n1 = ID n2 ∧ LessByID n2 n1 = false
   ∨ LessByID n1 n2 = false ∧ ID n1 ≠ ID n2 ∧ LessByID n2 n1 = true)
  ∧ MoreByID n1 n2 = LessByID n2 n1
  ∧ StrictWeakOrder LessByID
  ∧ StrictWeakOrder MoreByID
  ∧ (∀ n i j ni nj, n !! i = Some ni → n !! j = Some nj →
       Nodes_Less n i j = Some (LessByID ni nj))
  ∧ (∀ n i j, Nodes_Less n i j = None ↔ (length n ≤ i ∨ length n ≤ j)%nat).
Proof.
  split_and!.
  - unfold LessByID, String.ltb. rewrite (String.compare_antisym (ID n2) (ID n1)).
    destruct (String.compare (ID n1) (ID n2)) eqn:E; simpl.
    + right; left. by apply String.compare_eq_iff in E.
    + left. split_and!; try done. intros Heq. rewrite Heq, string_compare_refl in E. done.
    + right; right. split_and!; try done.
      intros Heq. rewrite Heq, string_compare_refl in E. done.
  - done.
  - apply LessByID_StrictWeakOrder.
  - apply MoreByID_StrictWeakOrder.
  - apply Nodes_Less_LessByID.
  - intros n i j. unfold Nodes_Less. rewrite <- !lookup_ge_None.
    destruct (n !! i), (n !! j); simpl;
      (split; [intros ?; try done; (by left) || (by right)|by intros [?|?]]).
Qed.

(** X10: [Swap] of [Nodes] panics exactly when an index is out of range;
    otherwise it exchanges the nodes at the two indices and leaves every
    other position, so the collection keeps its nodes and its size, and a
    second [Swap] of the same indices gives the collection back. *)
Theorem Nodes_Swap_exchanges (n : list Node) (i j : nat) :
  (Nodes_Swap n i j = None ↔ (length n ≤ i ∨ length n ≤ j)%nat)
  ∧ (∀ swapped, Nodes_Swap n i j = Some swapped →
       swapped ≡ₚ n
       ∧ length swapped = length n
       ∧ swapped !! i = n !! j
       ∧ swapped !! j = n !! i
       ∧ (∀ k, k ≠ i → k ≠ j → swapped !! k = n !! k)
       ∧ Nodes_Swap swapped i j = Some n).
Proof.
  split.
  - unfold Nodes_Swap. rewrite <- !lookup_ge_None.
    destruct (n !! i), (n !! j); simpl;
      (split; [intros ?; try done; (by left) || (by right)|by intros [?|?]]).
  - intros swapped. unfold Nodes_Swap.
    destruct (n !! i) as [ni|] eqn:Hi; [|done].
    destruct (n !! j) as [nj|] eqn:Hj; [|done]. simpl.
    intros [= <-].
    pose proof (lookup_lt_Some _ _ _ Hi) as Hilt.
    pose proof (lookup_lt_Some _ _ _ Hj) as Hjlt.
    assert (<[i:=nj]> (<[j:=ni]> n) !! i = Some nj) as Hi'.
    { apply list_lookup_insert_eq. by rewrite length_insert. }
    assert (<[i:=nj]> (<[j:=ni]> n) !! j = Some ni) as Hj'.
    { destruct (decide (i = j)) as [->|Hne].
      - simplify_eq. apply list_lookup_insert_eq. by rewrite length_insert.
      - rewrite list_lookup_insert_ne by done. by apply list_lookup_insert_eq. }
    split_and!.
    + by apply Permutation_insert_swap.
    + by rewrite !length_insert.
    + by rewrite Hi'.
    + by rewrite Hj'.
    + intros k Hki Hkj. by rewrite !list_lookup_insert_ne.
    + rewrite Hi', Hj'. simpl. f_equal. apply list_eq. intros k.
      destruct (decide (k = i)) as [->|Hki].
      { rewrite list_lookup_insert_eq by (by rewrite !length_insert). done. }
      rewrite list_lookup_insert_ne by done.
      destruct (decide (k = j)) as [->|Hkj].
      { rewrite list_lookup_insert_eq by (by rewrite !length_insert). done. }
      by rewrite !list_lookup_insert_ne.
Qed.

(** ** Sorting, continued *)

Section SortContractFurther.

Variable sort_Sort : (Node → Node → bool) → list Node → list Node.
Hypothesis sort_Sort_Permutation : ∀ less data, sort_Sort less data ≡ₚ data.
Hypothesis sort_Sort_IsSorted :
  ∀ less data, StrictWeakOrder less → IsSorted less (sort_Sort less data) = true.

(** X11: sorting with [SortNodes] changes no answer of the queries that do
    not depend on the order: the sorted collection has the same size and
    the same nodes, [CountByFunc] counts the same, [FilterByFunc] keeps the
    same nodes, [GetNodesByFunc] and [GetNodeByID] fail on the same
    arguments, and with distinct ids [GetNodeByID] finds the same node. *)
Theorem SortNodes_keeps_queries (n : list Node) (fn : Node → bool) (id : string) :
  length (returned (SortNodes sort_Sort n)) = length n
  ∧ (∀ node, node ∈ returned (SortNodes sort_Sort n) ↔ node ∈ n)
  ∧ CountByFunc (returned (SortNodes sort_Sort n)) fn = CountByFunc n fn
  ∧ FilterByFunc (returned (SortNodes sort_Sort n)) fn ≡ₚ FilterByFunc n fn
  ∧ (GetNodesByFunc (returned (SortNodes sort_Sort n)) fn).2 = (GetNodesByFunc n fn).2
  ∧ (GetNodeByID (returned (SortNodes sort_Sort n)) id).2 = (GetNodeByID n id).2
  ∧ (NoDup (ID <$> n) →
       GetNodeByID (returned (SortNodes sort_Sort n)) id = GetNodeByID n id).
Proof.
  assert (returned (SortNodes sort_Sort n) ≡ₚ n) as Hperm by apply sort_Sort_Permutation.
  generalize dependent (returned (SortNodes sort_Sort n)). intros sorted Hperm.
  assert (∀ node, node ∈ sorted ↔ node ∈ n) as Hin by (intros node; by rewrite Hperm).
  assert ((GetNodeByID sorted id).2 = (GetNodeByID n id).2) as Herr.
  { destruct (GetNodeByID_total sorted id) as [E|[node E]];
      destruct (GetNodeByID_total n id) as [E'|[node' E']]; rewrite E, E'; try done.
    - apply GetNodeByID_found in E' as (before & after & -> & Hid & _).
      destruct (proj1 (GetNodeByID_not_found sorted id) E node'); [|done].
      apply Hin, elem_of_app. right. by left.
    - apply GetNodeByID_found in E as (before & after & -> & Hid & _).
      destruct (proj1 (GetNodeByID_not_found n id) E' node); [|done].
      apply Hin, elem_of_app. right. by left. }
  split_and!.
  - by rewrite Hperm.
  - done.
  - rewrite !CountByFunc_length. by rewrite Hperm.
  - rewrite !FilterByFunc_filter. by rewrite Hperm.
  - rewrite !GetNodesByFunc_filter. simpl.
    assert (filter (λ node, fn node = true) sorted ≡ₚ filter (λ node, fn node = true) n)
      as Hfilter by (by rewrite Hperm).
    destruct (decide (filter (λ node, fn node = true) sorted = [])) as [E|E];
      destruct (decide (filter (λ node, fn node = true) n = [])) as [E'|E']; try done.
    + rewrite E in Hfilter. by apply Permutation_nil_l in Hfilter.
    + rewrite E' in Hfilter. by apply Permutation_nil_r in Hfilter.
  - done.
  - intros Hids.
    destruct (GetNodeByID_total sorted id) as [E|[node E]];
      destruct (GetNodeByID_total n id) as [E'|[node' E']];
      rewrite E, E' in *; try done.
    do 2 f_equal.
    apply GetNodeByID_found in E as (before & after & Hsorted & Hid & _).
    apply GetNodeByID_found in E' as (before' & after' & Hn & Hid' & _).
    apply (NoDup_ID_inj n); [done|..|congruence].
    + apply Hin. rewrite Hsorted. apply elem_of_app. right. by left.
    + rewrite Hn. apply elem_of_app. right. by left.
Qed.

(** X12: [by.Sort] with [MoreByID] leaves the slice in non-increasing order
    of id, with the nodes it had; its ids are the ids [SortNodes] gives,
    read backwards. *)
Theorem by_Sort_MoreByID_descending (n : list Node) :
  NonIncreasingByID (by_Sort sort_Sort MoreByID n)
  ∧ by_Sort sort_Sort MoreByID n ≡ₚ n
  ∧ ID <$> by_Sort sort_Sort MoreByID n = reverse (ID <$> returned (SortNodes sort_Sort n))
  ∧ receiver (SortByFunc sort_Sort n MoreByID) = by_Sort sort_Sort MoreByID n.
Proof.
  assert (IsSorted MoreByID (by_Sort sort_Sort MoreByID n) = true) as Hsorted
    by apply sort_Sort_IsSorted, MoreByID_StrictWeakOrder.
  assert (by_Sort sort_Sort MoreByID n ≡ₚ n) as Hperm by apply sort_Sort_Permutation.
  assert (Transitive (λ a b : string, String.leb b a = true)) as Htrans.
  { intros a b c Hab Hbc. by apply string_leb_trans with b. }
  assert (AntiSymm (=) (λ a b : string, String.leb b a = true)) as Hanti.
  { intros a b Hab Hba. by apply String.leb_antisym. }
  split_and!; try done.
  - intros i j a b Hij Hi Hj.
    destruct (decide (i = j)) as [->|Hne].
    + simplify_eq. apply string_leb_refl.
    + apply string_ltb_leb.
      apply (IsSorted_OrderedBy MoreByID _ MoreByID_StrictWeakOrder Hsorted i j a b);
        [lia|done..].
  - apply (Sorted_unique (λ a b : string, String.leb b a = true)).
    + eapply Sorted_fmap; [|apply IsSorted_Sorted, Hsorted].
      intros a b Hab. by apply string_ltb_leb.
    + apply (Sorted_reverse (λ a b : string, String.leb a b = true)).
      apply SortNodes_ids_Sorted. apply sort_Sort_IsSorted.
    + rewrite reverse_Permutation, Hperm.
      apply fmap_Permutation. symmetry. apply sort_Sort_Permutation.
Qed.

End SortContractFurther.

(** The three nodes of a collection sorted by id, the slaves counted before
    and after. *)
Lemma SortNodes_keeps_queries_witness :
  CountByFunc
    (returned (SortNodes insertionSort
       [set_Role "slave" (set_ID "C" zeroNode); set_ID "B" zeroNode;
        set_Role "slave" (set_ID "A" zeroNode)])) IsSlave
  = CountByFunc
      [set_Role "slave" (set_ID "C" zeroNode); set_ID "B" zeroNode;
       set_Role "slave" (set_ID "A" zeroNode)] IsSlave
  ∧ GetNodeByID
      (returned (SortNodes insertionSort
         [set_Role "slave" (set_ID "C" zeroNode); set_ID "B" zeroNode;
          set_Role "slave" (set_ID "A" zeroNode)])) "A"
    = GetNodeByID
        [set_Role "slave" (set_ID "C" zeroNode); set_ID "B" zeroNode;
         set_Role "slave" (set_ID "A" zeroNode)] "A".
Proof.
  destruct (SortNodes_keeps_queries insertionSort insertionSort_Permutation
              [set_Role "slave" (set_ID "C" zeroNode); set_ID "B" zeroNode;
               set_Role "slave" (set_ID "A" zeroNode)] IsSlave "A")
    as (_ & _ & HCount & _ & _ & _ & HGet).
  split; [exact HCount|]. apply HGet. compute_done.
Defined.

(** The four nodes of the test of [SortNodes], sorted by [MoreByID]. *)
Lemma by_Sort_MoreByID_descending_witness :
  ID <$> by_Sort insertionSort MoreByID
           [NewNode "edfg" "1.2.3.2" None; NewNode "mnop" "1.2.3.4" None;
            NewNode "abcd" "1.2.3.1" None; NewNode "igkl" "1.2.3.3" None]
  = reverse (ID <$> returned (SortNodes insertionSort
               [NewNode "edfg" "1.2.3.2" None; NewNode "mnop" "1.2.3.4" None;
                NewNode "abcd" "1.2.3.1" None; NewNode "igkl" "1.2.3.3" None])).
Proof.
  destruct (by_Sort_MoreByID_descending insertionSort
              insertionSort_Permutation insertionSort_IsSorted
              [NewNode "edfg" "1.2.3.2" None; NewNode "mnop" "1.2.3.4" None;
               NewNode "abcd" "1.2.3.1" None; NewNode "igkl" "1.2.3.3" None])
    as (_ & _ & H & _).
  exact H.
Defined.

(** ** The node decoder, continued *)

Lemma SetReferentMaster_set (n : Node) (ref : string) :
  SetReferentMaster n ref = set_MasterReferent (referent_of ref) n.
Proof. unfold SetReferentMaster, referent_of. by destruct (String.eqb ref "-"). Qed.

Lemma SetLinkStatus_set (n : Node) (status : string) :
  SetLinkStatus n status = set_LinkState (link_of_status status) n.
Proof.
  unfold SetLinkStatus, link_of_status.
  destruct (String.eqb_spec status RedisLinkStateConnected) as [->|Hc]; [done|].
  destruct (String.eqb_spec status RedisLinkStateDisconnected) as [->|Hd]; [done|].
  rewrite bool_decide_eq_false_2; [done|].
  rewrite !elem_of_cons, elem_of_nil. tauto.
Qed.

Section DecoderFurther.

Variable SplitHostPort : string → string * string * option error.
Variable ParseInt : string → Z * option error.
Variable DecodeSlotRange :
  string → list Slot * option ImportingSlot * option MigratingSlot * option error.

Lemma DecodeNodeInfos_int_PingSent (n : Node) (value : string) :
  PingSent n = 0 →
  DecodeNodeInfos_int ParseInt set_PingSent n value = set_PingSent (int_of ParseInt value) n.
Proof.
  unfold DecodeNodeInfos_int, int_of. destruct (ParseInt value) as [i [e|]]; [|done].
  destruct n. simpl. by intros ->.
Qed.

Lemma DecodeNodeInfos_int_PongRecv (n : Node) (value : string) :
  PongRecv n = 0 →
  DecodeNodeInfos_int ParseInt set_PongRecv n value = set_PongRecv (int_of ParseInt value) n.
Proof.
  unfold DecodeNodeInfos_int, int_of. destruct (ParseInt value) as [i [e|]]; [|done].
  destruct n. simpl. by intros ->.
Qed.

Lemma DecodeNodeInfos_int_ConfigEpoch (n : Node) (value : string) :
  ConfigEpoch n = 0 →
  DecodeNodeInfos_int ParseInt set_ConfigEpoch n value
    = set_ConfigEpoch (int_of ParseInt value) n.
Proof.
  unfold DecodeNodeInfos_int, int_of. destruct (ParseInt value) as [i [e|]]; [|done].
  destruct n. simpl. by intros ->.
Qed.

(** One slot token: its slots are appended and its markers recorded; a
    refused token brings nothing. *)
Lemma DecodeNodeInfos_slot_set (n : Node) (slot : string) :
  DecodeNodeInfos_slot DecodeSlotRange n slot =
    set_Slots (Slots n ++ slots_of DecodeSlotRange slot)
      (set_ImportingSlots (record_importing DecodeSlotRange (ImportingSlots n) slot)
         (set_MigratingSlots (record_migrating DecodeSlotRange (MigratingSlots n) slot) n)).
Proof.
  unfold DecodeNodeInfos_slot, slots_of, record_importing, record_migrating,
    importing_of, migrating_of.
  destruct n. destruct (DecodeSlotRange slot) as [[[s [i|]] [m|]] [e|]]; simpl;
    by rewrite ?app_nil_r.
Qed.

Lemma DecodeNodeInfos_slots_set (slots : list string) (n : Node) :
  foldl (DecodeNodeInfos_slot DecodeSlotRange) n slots =
    set_Slots (Slots n ++ (slots ≫= slots_of DecodeSlotRange))
      (set_ImportingSlots (foldl (record_importing DecodeSlotRange) (ImportingSlots n) slots)
         (set_MigratingSlots (foldl (record_migrating DecodeSlotRange) (MigratingSlots n) slots)
            n)).
Proof.
  revert n. induction slots as [|slot slots IH]; intros n.
  - simpl. rewrite app_nil_r. by destruct n.
  - simpl foldl. rewrite IH, DecodeNodeInfos_slot_set, bind_cons. simpl.
    by rewrite (assoc_L (++)).
Qed.

(** A later marker for a slot replaces an earlier one. *)
Lemma record_importing_lookup (slots : list string) (m : gmap Slot string) (s : Slot) :
  foldl (record_importing DecodeSlotRange) m slots !! s =
    match last (filter (λ i, ImportingSlot_SlotID i = s)
                  (omap (importing_of DecodeSlotRange) slots)) with
    | Some i => Some (FromNodeID i)
    | None => m !! s
    end.
Proof.
  induction slots as [|slot slots IH] using rev_ind; [done|].
  rewrite foldl_snoc, omap_app, filter_app. unfold record_importing at 1. simpl.
  destruct (importing_of DecodeSlotRange slot) as [i|]; simpl.
  - rewrite filter_cons, filter_nil.
    destruct (decide (ImportingSlot_SlotID i = s)) as [<-|Hne].
    + by rewrite lookup_insert_eq, last_snoc.
    + by rewrite lookup_insert_ne, app_nil_r.
  - by rewrite filter_nil, app_nil_r.
Qed.

Lemma record_migrating_lookup (slots : list string) (m : gmap Slot string) (s : Slot) :
  foldl (record_migrating DecodeSlotRange) m slots !! s =
    match last (filter (λ i, MigratingSlot_SlotID i = s)
                  (omap (migrating_of DecodeSlotRange) slots)) with
    | Some i => Some (ToNodeID i)
    | None => m !! s
    end.
Proof.
  induction slots as [|slot slots IH] using rev_ind; [done|].
  rewrite foldl_snoc, omap_app, filter_app. unfold record_migrating at 1. simpl.
  destruct (migrating_of DecodeSlotRange slot) as [i|]; simpl.
  - rewrite filter_cons, filter_nil.
    destruct (decide (MigratingSlot_SlotID i = s)) as [<-|Hne].
    + by rewrite lookup_insert_eq, last_snoc.
    + by rewrite lookup_insert_ne, app_nil_r.
  - by rewrite filter_nil, app_nil_r.
Qed.

(** X13: the loop over the slot tokens of a line appends, in the order of
    the tokens, the slots of every token [DecodeSlotRange] accepts and
    records its markers; a token it refuses changes nothing and does not
    stop the loop; a later marker for a slot replaces an earlier one for
    the same slot; no other field of the node is touched. *)
Theorem DecodeNodeInfos_slot_tokens (n : Node) (slots : list string) :
  Slots (foldl (DecodeNodeInfos_slot DecodeSlotRange) n slots)
    = Slots n ++ (slots ≫= slots_of DecodeSlotRange)
  ∧ (∀ s, ImportingSlots (foldl (DecodeNodeInfos_slot DecodeSlotRange) n slots) !! s =
       match last (filter (λ i, ImportingSlot_SlotID i = s)
                     (omap (importing_of DecodeSlotRange) slots)) with
       | Some i => Some (FromNodeID i)
       | None => ImportingSlots n !! s
       end)
  ∧ (∀ s, MigratingSlots (foldl (DecodeNodeInfos_slot DecodeSlotRange) n slots) !! s =
       match last (filter (λ i, MigratingSlot_SlotID i = s)
                     (omap (migrating_of DecodeSlotRange) slots)) with
       | Some i => Some (ToNodeID i)
       | None => MigratingSlots n !! s
       end)
  ∧ (∀ slot, (DecodeSlotRange slot).2 ≠ None →
       DecodeNodeInfos_slot DecodeSlotRange n slot = n
       ∧ slots_of DecodeSlotRange slot = []
       ∧ importing_of DecodeSlotRange slot = None
       ∧ migrating_of DecodeSlotRange slot = None)
  ∧ foldl (DecodeNodeInfos_slot DecodeSlotRange) n slots =
      set_Slots (Slots (foldl (DecodeNodeInfos_slot DecodeSlotRange) n slots))
        (set_ImportingSlots (ImportingSlots (foldl (DecodeNodeInfos_slot DecodeSlotRange) n slots))
           (set_MigratingSlots
              (MigratingSlots (foldl (DecodeNodeInfos_slot DecodeSlotRange) n slots)) n)).
Proof.
  rewrite DecodeNodeInfos_slots_set. simpl. split_and!; try done.
  - intros s. apply record_importing_lookup.
  - intros s. apply record_migrating_lookup.
  - intros slot Herr.
    unfold DecodeNodeInfos_slot, slots_of, importing_of, migrating_of.
    by destruct (DecodeSlotRange slot) as [[[s i] m] [e|]].
Qed.

(** The log of the address step. *)
Lemma DecodeNodeInfos_addr_set (n : Node) (value1 : string) :
  DecodeNodeInfos_addr SplitHostPort n value1 =
    match SplitHostPort (hd "" (strings.Split value1 at_sign)) with
    | (ip, port, None) => (set_Port port (set_IP ip n), [])
    | (_, _, Some err) =>
        (n, [Errorf "Error while decoding node info for node '%s', cannot split ip:port ('%s'): %v"
               [ID n; value1; error_String err]])
    end.
Proof. done. Qed.

(** A line of at least eight fields, field by field. *)
Lemma DecodeNodeInfos_line_decoded
    (line v0 v1 v2 v3 v4 v5 v6 v7 : string) (slots : list string) :
  strings.Split line space = v0 :: v1 :: v2 :: v3 :: v4 :: v5 :: v6 :: v7 :: slots →
  DecodeNodeInfos_line SplitHostPort ParseInt DecodeSlotRange ([], []) line =
    ([decoded_node SplitHostPort ParseInt DecodeSlotRange v0 v1 v2 v3 v4 v5 v6 v7 slots],
     match SplitHostPort (hd "" (strings.Split v1 at_sign)) with
     | (_, _, None) => []
     | (_, _, Some err) =>
         [Errorf "Error while decoding node info for node '%s', cannot split ip:port ('%s'): %v"
            [v0; v1; error_String err]]
     end).
Proof.
  intros Hline. unfold DecodeNodeInfos_line. rewrite Hline, DecodeNodeInfos_addr_set.
  unfold decoded_node, address_of.
  destruct (SplitHostPort (hd "" (strings.Split v1 at_sign))) as [[ip port] [err|]];
    rewrite SetRole_set, SetFailureStatus_set, SetReferentMaster_set,
      DecodeNodeInfos_int_PingSent, DecodeNodeInfos_int_PongRecv,
      DecodeNodeInfos_int_ConfigEpoch, SetLinkStatus_set, DecodeNodeInfos_slots_set by done;
    done.
Qed.

(** X14: a line of at least eight fields gives exactly one node, whose
    fields are, one by one: the id, the ip and port of the address (empty
    ip and default port when it does not parse), the last role flag and
    the failure flags of the flags field, the master referent (empty for
    the dash), the three numbers (zero for one that does not parse), the
    link state (empty when unknown), the slots and markers of the accepted
    slot tokens; it has no start time and no pod.  Only a bad address is
    logged. *)
Theorem DecodeNodeInfos_line_fields
    (line v0 v1 v2 v3 v4 v5 v6 v7 : string) (slots : list string) :
  strings.Split line space = v0 :: v1 :: v2 :: v3 :: v4 :: v5 :: v6 :: v7 :: slots →
  DecodeNodeInfos_line SplitHostPort ParseInt DecodeSlotRange ([], []) line =
    ([decoded_node SplitHostPort ParseInt DecodeSlotRange v0 v1 v2 v3 v4 v5 v6 v7 slots],
     match SplitHostPort (hd "" (strings.Split v1 at_sign)) with
     | (_, _, None) => []
     | (_, _, Some err) =>
         [Errorf "Error while decoding node info for node '%s', cannot split ip:port ('%s'): %v"
            [v0; v1; error_String err]]
     end).
Proof. apply DecodeNodeInfos_line_decoded. Qed.

(** A line with fewer than eight fields gives no node. *)
Lemma DecodeNodeInfos_line_short (line : string) :
  ¬ node_line line →
  DecodeNodeInfos_line SplitHostPort ParseInt DecodeSlotRange ([], []) line =
    ([], [Infof 7 "Not enough values in line split, ignoring line: '%s'" [line]]).
Proof.
  unfold node_line, DecodeNodeInfos_line. intros Hshort.
  destruct (strings.Split line space) as [|v0 [|v1 [|v2 [|v3 [|v4 [|v5 [|v6 [|v7 slots]]]]]]]];
    try done.
  simpl in Hshort. lia.
Qed.

Lemma DecodeNodeInfos_line_long (line : string) :
  node_line line →
  ∃ v0 v1 v2 v3 v4 v5 v6 v7 slots,
    strings.Split line space = v0 :: v1 :: v2 :: v3 :: v4 :: v5 :: v6 :: v7 :: slots.
Proof.
  unfold node_line. intros Hlong.
  destruct (strings.Split line space) as [|v0 [|v1 [|v2 [|v3 [|v4 [|v5 [|v6 [|v7 slots]]]]]]]];
    simpl in Hlong; try lia.
  by repeat eexists.
Qed.

Lemma DecodeNodeInfos_line_ids (line : string) :
  ID <$> (DecodeNodeInfos_line SplitHostPort ParseInt DecodeSlotRange ([], []) line).1 =
    if decide (node_line line) then [hd "" (strings.Split line space)] else [].
Proof.
  destruct (decide (node_line line)) as [Hlong|Hshort].
  - destruct (DecodeNodeInfos_line_long line Hlong)
      as (v0 & v1 & v2 & v3 & v4 & v5 & v6 & v7 & slots & Hline).
    rewrite (DecodeNodeInfos_line_decoded line v0 v1 v2 v3 v4 v5 v6 v7 slots Hline).
    by rewrite Hline.
  - by rewrite (DecodeNodeInfos_line_short line Hshort).
Qed.

(** The decoder, line by line. *)
Lemma DecodeNodeInfos_lines (lines : list string) :
  foldl (DecodeNodeInfos_line SplitHostPort ParseInt DecodeSlotRange) ([], []) lines =
    (lines ≫= (λ line,
       (DecodeNodeInfos_line SplitHostPort ParseInt DecodeSlotRange ([], []) line).1),
     lines ≫= (λ line,
       (DecodeNodeInfos_line SplitHostPort ParseInt DecodeSlotRange ([], []) line).2)).
Proof.
  induction lines as [|line lines IH] using rev_ind; [done|].
  rewrite foldl_snoc, IH, DecodeNodeInfos_line_app, !bind_app. simpl.
  by rewrite !app_nil_r.
Qed.

(** X15: the decoder gives one node for every line of at least eight
    fields, in the order of the lines, with the first field as id; a
    shorter line gives no node and a log line of verbosity 7; the empty
    text gives no node. *)
Theorem DecodeNodeInfos_node_lines (input : string) :
  ID <$> (DecodeNodeInfos SplitHostPort ParseInt DecodeSlotRange input).1 =
    (λ line, hd "" (strings.Split line space))
      <$> filter node_line (strings.Split input newline)
  ∧ length (DecodeNodeInfos SplitHostPort ParseInt DecodeSlotRange input).1 =
      length (filter node_line (strings.Split input newline))
  ∧ (∀ line, line ∈ strings.Split input newline → ¬ node_line line →
       Infof 7 "Not enough values in line split, ignoring line: '%s'" [line]
         ∈ (DecodeNodeInfos SplitHostPort ParseInt DecodeSlotRange input).2)
  ∧ DecodeNodeInfos SplitHostPort ParseInt DecodeSlotRange "" =
      ([], [Infof 7 "Not enough values in line split, ignoring line: '%s'" [""]]).
Proof.
  assert (ID <$> (DecodeNodeInfos SplitHostPort ParseInt DecodeSlotRange input).1 =
            (λ line, hd "" (strings.Split line space))
              <$> filter node_line (strings.Split input newline)) as Hids.
  { unfold DecodeNodeInfos. rewrite DecodeNodeInfos_lines. cbn [fst].
    induction (strings.Split input newline) as [|line lines IH]; [done|].
    rewrite bind_cons, fmap_app, IH, filter_cons, DecodeNodeInfos_line_ids.
    by destruct (decide (node_line line)). }
  split_and!.
  - done.
  - by rewrite <- (length_fmap ID), Hids, length_fmap.
  - intros line Hline Hshort. unfold DecodeNodeInfos. rewrite DecodeNodeInfos_lines.
    cbn [snd]. apply list_elem_of_bind. exists line. split; [|done].
    rewrite (DecodeNodeInfos_line_short line Hshort). by left.
  - done.
Qed.

(** X16: decoding two texts joined by a newline gives the nodes of the
    first followed by the nodes of the second, and the two logs one after
    the other; so a newline at the end of the text or at its start adds no
    node. *)
Theorem DecodeNodeInfos_app (a b : string) :
  DecodeNodeInfos SplitHostPort ParseInt DecodeSlotRange (a +:+ String newline b) =
    ((DecodeNodeInfos SplitHostPort ParseInt DecodeSlotRange a).1
       ++ (DecodeNodeInfos SplitHostPort ParseInt DecodeSlotRange b).1,
     (DecodeNodeInfos SplitHostPort ParseInt DecodeSlotRange a).2
       ++ (DecodeNodeInfos SplitHostPort ParseInt DecodeSlotRange b).2)
  ∧ (DecodeNodeInfos SplitHostPort ParseInt DecodeSlotRange (a +:+ String newline "")).1
      = (DecodeNodeInfos SplitHostPort ParseInt DecodeSlotRange a).1
  ∧ (DecodeNodeInfos SplitHostPort ParseInt DecodeSlotRange (String newline a)).1
      = (DecodeNodeInfos SplitHostPort ParseInt DecodeSlotRange a).1.
Proof.
  assert (∀ a b,
            DecodeNodeInfos SplitHostPort ParseInt DecodeSlotRange (a +:+ String newline b) =
              ((DecodeNodeInfos SplitHostPort ParseInt DecodeSlotRange a).1
                 ++ (DecodeNodeInfos SplitHostPort ParseInt DecodeSlotRange b).1,
               (DecodeNodeInfos SplitHostPort ParseInt DecodeSlotRange a).2
                 ++ (DecodeNodeInfos SplitHostPort ParseInt DecodeSlotRange b).2)) as Happ.
  { intros a' b'. unfold DecodeNodeInfos.
    by rewrite Split_app, !DecodeNodeInfos_lines, !bind_app. }
  split_and!.
  - apply Happ.
  - rewrite Happ. simpl. by rewrite app_nil_r.
  - change (String newline a) with ("" +:+ String newline a). by rewrite Happ.
Qed.

End DecoderFurther.

(** A master line of a node list with a number that does not parse, a slot
    range, a token that is no slot, a migrating marker and a single slot. *)
Lemma DecodeNodeInfos_line_fields_witness :
  DecodeNodeInfos_line net.SplitHostPort strconv.ParseInt slots.DecodeSlotRange ([], [])
    "abcd 1.2.3.4:6379@16379 myself,master - 0 x 4 connected 0-2 bad [50->-edfg] 7" =
    ([decoded_node net.SplitHostPort strconv.ParseInt slots.DecodeSlotRange
        "abcd" "1.2.3.4:6379@16379" "myself,master" "-" "0" "x" "4" "connected"
        ["0-2"; "bad"; "[50->-edfg]"; "7"]],
     [])
  ∧ (λ n, (ID n, IP n, Port n, Role n, MasterReferent n, PongRecv n, ConfigEpoch n, Slots n,
           MigratingSlots n !! 50%N))
      (decoded_node net.SplitHostPort strconv.ParseInt slots.DecodeSlotRange
         "abcd" "1.2.3.4:6379@16379" "myself,master" "-" "0" "x" "4" "connected"
         ["0-2"; "bad"; "[50->-edfg]"; "7"])
    = ("abcd", "1.2.3.4", "6379", "master", "", 0, 4, [0%N; 1%N; 2%N; 7%N], Some "edfg").
Proof.
  split; [|by vm_compute].
  rewrite (DecodeNodeInfos_line_fields net.SplitHostPort strconv.ParseInt slots.DecodeSlotRange
             "abcd 1.2.3.4:6379@16379 myself,master - 0 x 4 connected 0-2 bad [50->-edfg] 7"
             "abcd" "1.2.3.4:6379@16379" "myself,master" "-" "0" "x" "4" "connected"
             ["0-2"; "bad"; "[50->-edfg]"; "7"]); [|by vm_compute].
  by vm_compute.
Defined.

(** On a node with a slot, the tokens of the line above: the token that is
    no slot is passed over. *)
Lemma DecodeNodeInfos_slot_tokens_witness :
  DecodeNodeInfos_slot slots.DecodeSlotRange (set_Slots [9%N] NewDefaultNode) "bad"
    = set_Slots [9%N] NewDefaultNode
  ∧ Slots (foldl (DecodeNodeInfos_slot slots.DecodeSlotRange) (set_Slots [9%N] NewDefaultNode)
             ["0-2"; "bad"; "[50->-edfg]"; "7"])
    = [9%N; 0%N; 1%N; 2%N; 7%N].
Proof.
  destruct (DecodeNodeInfos_slot_tokens slots.DecodeSlotRange (set_Slots [9%N] NewDefaultNode)
              ["0-2"; "bad"; "[50->-edfg]"; "7"]) as (HSlots & _ & _ & Hbad & _).
  split.
  - by apply (Hbad "bad").
  - rewrite HSlots. by vm_compute.
Defined.

(** ** The status decoder, continued *)

Lemma Contains_app (a b : string) (c : ascii) :
  strings.Contains (a +:+ b) c = strings.Contains a c || strings.Contains b c.
Proof.
  induction a as [|d a IH]; simpl; [done|].
  rewrite IH. by rewrite orb_assoc.
Qed.

(** The two parts of a cut hold no character the string does not hold, and
    the first part never holds the separator. *)
Lemma Cut_parts (s : string) (sep : ascii) :
  strings.Contains (strings.Cut s sep).1.1 sep = false
  ∧ ∀ c, strings.Contains s c = false →
      strings.Contains (strings.Cut s sep).1.1 c = false
      ∧ strings.Contains (strings.Cut s sep).1.2 c = false.
Proof.
  induction s as [|d s [IHsep IH]]; simpl; [done|].
  destruct (Ascii.eqb d sep) eqn:E; simpl.
  - split; [done|]. intros c [_ Hs]%orb_false_iff. done.
  - destruct (strings.Cut s sep) as [[before after] found]. simpl in *.
    rewrite E, IHsep. split; [done|].
    intros c [Hd Hs]%orb_false_iff. rewrite Hd. simpl. by apply IH.
Qed.

Lemma entries_to_map_app (l1 l2 : list (string * string)) :
  entries_to_map (l1 ++ l2) = entries_to_map l2 ∪ entries_to_map l1.
Proof.
  apply map_eq. intros key.
  rewrite lookup_union, !entries_to_map_lookup, filter_app, last_app.
  destruct (last (filter (λ kv, kv.1 = key) l2)) as [kv2|];
    by destruct (last (filter (λ kv, kv.1 = key) l1)).
Qed.

Lemma DecodeClusterInfos_map (input : string) :
  (DecodeClusterInfos input).1 =
    entries_to_map (omap entry_between_colons (strings.Split input newline)).
Proof. unfold DecodeClusterInfos. by rewrite DecodeClusterInfos_loop. Qed.

(** X17: no key and no value of the mapping [DecodeClusterInfos] gives
    holds a colon or a newline.  Decoding two texts joined by a newline
    gives the entries of both, the second text winning on a shared
    key, and the two logs one after the other; a newline at the end of the
    text changes no entry, and the empty text gives the empty mapping. *)
Theorem DecodeClusterInfos_further (input a b : string) :
  (∀ key value, (DecodeClusterInfos input).1 !! key = Some value →
     strings.Contains key colon = false ∧ strings.Contains key newline = false
     ∧ strings.Contains value colon = false ∧ strings.Contains value newline = false)
  ∧ (DecodeClusterInfos (a +:+ String newline b)).1
      = (DecodeClusterInfos b).1 ∪ (DecodeClusterInfos a).1
  ∧ (DecodeClusterInfos (a +:+ String newline b)).2
      = (DecodeClusterInfos a).2 ++ (DecodeClusterInfos b).2
  ∧ (DecodeClusterInfos (a +:+ String newline "")).1 = (DecodeClusterInfos a).1
  ∧ DecodeClusterInfos "" =
      (∅, [Infof 2 "Not enough values in line split, ignoring line: '%s'" [""]]).
Proof.
  assert (∀ a b, (DecodeClusterInfos (a +:+ String newline b)).1
                 = (DecodeClusterInfos b).1 ∪ (DecodeClusterInfos a).1) as Happ.
  { intros a' b'. by rewrite !DecodeClusterInfos_map, Split_app, omap_app, entries_to_map_app. }
  split_and!.
  - intros key value. rewrite DecodeClusterInfos_map, entries_to_map_lookup.
    intros Hlast. apply fmap_Some in Hlast as ([key' value'] & Hlast & ->).
    apply last_Some_elem_of, list_elem_of_filter in Hlast as [Hkey Hin].
    simpl in Hkey. subst key'.
    apply list_elem_of_omap in Hin as (line & Hline & Hentry).
    apply Split_fields in Hline. simpl.
    unfold entry_between_colons in Hentry.
    destruct (Cut_parts line colon) as [Hbefore Hline'].
    destruct (Hline' newline Hline) as [Hkeynl Hrestnl].
    destruct (strings.Cut line colon) as [[k rest] []]; [|done].
    simpl in *. simplify_eq.
    destruct (Cut_parts rest colon) as [Hvalue Hrest].
    destruct (Hrest newline Hrestnl) as [Hvaluenl _].
    done.
  - apply Happ.
  - unfold DecodeClusterInfos. rewrite Split_app, foldl_app.
    rewrite (DecodeClusterInfos_loop (strings.Split b newline)).
    rewrite !DecodeClusterInfos_loop. simpl. done.
  - rewrite Happ. change (DecodeClusterInfos "").1 with (∅ : gmap string string).
    by rewrite (left_id_L ∅ (∪)).
  - done.
Qed.

(** ** The admin façade, continued *)

Section AdminFurther.

Variable ParseRedisMemConf : string → string * option error.
Variable ConfigSet_Err : Client → string → string → option error.

(** The state of the loop after a prefix of the pairs on which no
    [CONFIG SET] fails. *)
Lemma SetRedisConfig_range_prefix (before after : list (string * string))
    (master : Client) (log : list LogEntry) :
  (∀ kv m, kv ∈ before → ConfigSet_Err m kv.1 kv.2 = None) →
  SetRedisConfig_range ParseRedisMemConf ConfigSet_Err (before ++ after) master log =
    SetRedisConfig_range ParseRedisMemConf ConfigSet_Err after
      {| Addr := Addr master;
         sent := sent master ++ filter (λ kv, refused ParseRedisMemConf kv = false) before |}
      (log ++ (refused_entry ParseRedisMemConf
                 <$> filter (λ kv, refused ParseRedisMemConf kv = true) before)).
Proof.
  revert master log. induction before as [|[key value] before IH]; intros master log Hok.
  - rewrite !filter_nil. simpl. rewrite !app_nil_r. by destruct master.
  - rewrite <- app_comm_cons, !filter_cons.
    destruct (refused ParseRedisMemConf (key, value)) eqn:E.
    + rewrite SetRedisConfig_range_refused by done.
      rewrite IH by (intros kv m Hkv; apply Hok; by right).
      rewrite decide_False, decide_True by done. simpl. by rewrite <- (assoc_L (++)).
    + rewrite SetRedisConfig_range_sent by done.
      pose proof (Hok (key, value) master) as Hkv. simpl in Hkv.
      rewrite Hkv by (by left).
      rewrite IH by (intros kv m ?; apply Hok; by right).
      rewrite decide_True, decide_False by done. simpl. by rewrite <- (assoc_L (++)).
Qed.

(** X18: the loop of [SetRedisConfig] stops at the first [CONFIG SET] that
    fails and returns its error: the pairs before it that are not refused
    have been sent, in order, the failing pair is the last command sent,
    and nothing of the pairs after it is sent or logged. *)
Theorem SetRedisConfig_stops_at_first_failure
    (rc : Client) (before after : list (string * string)) (key value : string) (e : error) :
  (∀ kv m, kv ∈ before → ConfigSet_Err m kv.1 kv.2 = None) →
  refused ParseRedisMemConf (key, value) = false →
  (∀ m, ConfigSet_Err m key value = Some e) →
  SetRedisConfig ParseRedisMemConf ConfigSet_Err rc (before ++ (key, value) :: after) =
    {| client :=
         {| Addr := Addr rc;
            sent := sent rc ++ filter (λ kv, refused ParseRedisMemConf kv = false) before
                    ++ [(key, value)] |};
       logged := refused_entry ParseRedisMemConf
                   <$> filter (λ kv, refused ParseRedisMemConf kv = true) before;
       err := Some e |}.
Proof.
  intros Hbefore Hkv Hfail. unfold SetRedisConfig.
  rewrite SetRedisConfig_range_prefix by done.
  rewrite SetRedisConfig_range_sent, Hfail by done. simpl.
  by rewrite <- (assoc_L (++)).
Qed.

(** Whatever the transport does, the loop works through a prefix of the
    pairs. *)
Lemma SetRedisConfig_range_worked (kvs : list (string * string)) (master : Client)
    (log : list LogEntry) :
  ∃ worked rest,
    kvs = worked ++ rest
    ∧ client (SetRedisConfig_range ParseRedisMemConf ConfigSet_Err kvs master log) =
        {| Addr := Addr master;
           sent := sent master ++ filter (λ kv, refused ParseRedisMemConf kv = false) worked |}
    ∧ logged (SetRedisConfig_range ParseRedisMemConf ConfigSet_Err kvs master log) =
        log ++ (refused_entry ParseRedisMemConf
                  <$> filter (λ kv, refused ParseRedisMemConf kv = true) worked)
    ∧ (err (SetRedisConfig_range ParseRedisMemConf ConfigSet_Err kvs master log) = None →
       rest = []).
Proof.
  revert master log. induction kvs as [|[key value] kvs IH]; intros master log.
  - exists [], []. rewrite !filter_nil. simpl. rewrite !app_nil_r. by destruct master.
  - destruct (refused ParseRedisMemConf (key, value)) eqn:E.
    + rewrite SetRedisConfig_range_refused by done.
      destruct (IH master (log ++ [refused_entry ParseRedisMemConf (key, value)]))
        as (worked & rest & Hkvs & Hclient & Hlogged & Herr).
      exists ((key, value) :: worked), rest.
      rewrite !filter_cons, decide_False, decide_True by congruence.
      split_and!; [by rewrite Hkvs|exact Hclient| |exact Herr].
      rewrite Hlogged. simpl. by rewrite <- (assoc_L (++)).
    + rewrite SetRedisConfig_range_sent by done.
      destruct (ConfigSet_Err master key value) as [e|].
      * exists [(key, value)], kvs.
        rewrite !filter_cons, !filter_nil, decide_True, decide_False by congruence.
        simpl. by rewrite app_nil_r.
      * destruct (IH {| Addr := Addr master; sent := sent master ++ [(key, value)] |} log)
          as (worked & rest & Hkvs & Hclient & Hlogged & Herr).
        exists ((key, value) :: worked), rest.
        rewrite !filter_cons, decide_True, decide_False by congruence.
        split_and!; [by rewrite Hkvs| |exact Hlogged|exact Herr].
        rewrite Hclient. simpl. by rewrite <- (assoc_L (++)).
Qed.

(** X19: whatever the transport answers, [SetRedisConfig] talks to the
    client it was given and only adds commands to it: what it sends is, in
    order and unchanged, the pairs of a first part of the mapping that are
    not refused, what it logs are the refused pairs of that part, and
    without an error that part is the whole mapping.  A pair is refused
    only when its key is one of the thirteen keys of [parseConfigMap] and
    [ParseRedisMemConf] gives an error for its value; a pair with any other
    key is never passed over. *)
Theorem SetRedisConfig_sends_a_prefix (rc : Client) (newConfig : list (string * string)) :
  (∃ worked rest,
     newConfig = worked ++ rest
     ∧ client (SetRedisConfig ParseRedisMemConf ConfigSet_Err rc newConfig) =
         {| Addr := Addr rc;
            sent := sent rc ++ filter (λ kv, refused ParseRedisMemConf kv = false) worked |}
     ∧ logged (SetRedisConfig ParseRedisMemConf ConfigSet_Err rc newConfig) =
         refused_entry ParseRedisMemConf
           <$> filter (λ kv, refused ParseRedisMemConf kv = true) worked
     ∧ (err (SetRedisConfig ParseRedisMemConf ConfigSet_Err rc newConfig) = None → rest = []))
  ∧ (∀ key value, refused ParseRedisMemConf (key, value) = true ↔
       key ∈ ["maxmemory"; "proto-max-bulk-len"; "client-query-buffer-limit";
              "repl-backlog-size"; "auto-aof-rewrite-min-size";
              "active-defrag-ignore-bytes"; "hash-max-ziplist-entries";
              "hash-max-ziplist-value"; "stream-node-max-bytes";
              "set-max-intset-entries"; "zset-max-ziplist-entries";
              "zset-max-ziplist-value"; "hll-sparse-max-bytes"]
       ∧ (ParseRedisMemConf value).2 ≠ None)
  ∧ (∀ value, refused ParseRedisMemConf ("client-output-buffer-limit", value) = false).
Proof.
  split_and!.
  - apply (SetRedisConfig_range_worked newConfig rc []).
  - intros key value. unfold refused. simpl.
    destruct (parseConfigMap !! key) as [z|] eqn:Hkey.
    + apply elem_of_list_to_map_2 in Hkey.
      apply (list_elem_of_fmap_2 fst) in Hkey. simpl in Hkey.
      rewrite bool_decide_eq_true.
      split.
      * intros [e He]. split; [done|]. by rewrite He.
      * intros [_ Hne]. by destruct (ParseRedisMemConf value).2.
    + split; [done|]. intros [Hin _].
      apply not_elem_of_list_to_map_2 in Hkey. by destruct Hkey.
  - done.
Qed.

End AdminFurther.

(** A mapping whose second key the transport refuses: the first pair is
    sent, the second is tried and fails, the third is never sent. *)
Lemma SetRedisConfig_stops_at_first_failure_witness :
  SetRedisConfig utils.ParseRedisMemConf (ConfigSet_refusing "save")
    {| Addr := "1.2.3.1:6379"; sent := [] |}
    ([("maxmemory", "1gb")] ++ ("save", "900 1") :: [("appendonly", "yes")]) =
    {| client :=
         {| Addr := "1.2.3.1:6379";
            sent := [] ++ filter (λ kv, refused utils.ParseRedisMemConf kv = false)
                            [("maxmemory", "1gb")]
                    ++ [("save", "900 1")] |};
       logged := refused_entry utils.ParseRedisMemConf
                   <$> filter (λ kv, refused utils.ParseRedisMemConf kv = true)
                         [("maxmemory", "1gb")];
       err := Some (Err "ERR Unsupported CONFIG parameter: save") |}.
Proof.
  apply (SetRedisConfig_stops_at_first_failure utils.ParseRedisMemConf
           (ConfigSet_refusing "save") {| Addr := "1.2.3.1:6379"; sent := [] |}
           [("maxmemory", "1gb")] [("appendonly", "yes")] "save" "900 1").
  - intros kv m Hkv. apply list_elem_of_singleton in Hkv as ->. done.
  - by vm_compute.
  - done.
Defined.

(** ** From a line of the node list to the role *)

Section DecodedRole.

Variable SplitHostPort : string → string * string * option error.
Variable ParseInt : string → Z * option error.
Variable DecodeSlotRange :
  string → list Slot * option ImportingSlot * option MigratingSlot * option error.

(** The role of the node [decoded_node] describes. *)
Lemma decoded_node_role (v0 v1 v2 v3 v4 v5 v6 v7 : string) (slots : list string) :
  GetRole (decoded_node SplitHostPort ParseInt DecodeSlotRange v0 v1 v2 v3 v4 v5 v6 v7 slots) =
    if decide (role_of_flags v2 = "") then
      if decide (v3 = "-" ∨ v3 = "") then
        if decide (slots ≫= slots_of DecodeSlotRange = []) then "none" else "master"
      else "slave"
    else role_of_flags v2.
Proof.
  unfold GetRole, decoded_node. simpl.
  assert (referent_of v3 = "" ↔ v3 = "-" ∨ v3 = "") as Href.
  { unfold referent_of. destruct (String.eqb_spec v3 "-") as [->|Hne]; [tauto|].
    split; [by right|]. by intros [?|?]. }
  destruct (decide (role_of_flags v2 = "")) as [->|Hrole].
  - simpl. destruct (String.eqb_spec (referent_of v3) "") as [E|E].
    + rewrite decide_True by by apply Href.
      simpl. by destruct (slots ≫= slots_of DecodeSlotRange).
    + rewrite decide_False; [done|]. by intros ?%Href.
  - destruct (role_of_flags_cases v2) as [E|E]; [done|].
    apply elem_of_cons in E as [->|E]; [done|].
    by apply list_elem_of_singleton in E as ->.
Qed.

(** X20: the role [GetRole] gives for the node the decoder makes of a line
    of at least eight fields.  A role flag in the flags field decides, the
    last one when there are several.  Without role flag the node is a
    slave when the referent field is neither the dash nor empty, else a
    master when an accepted slot token brought a slot, else it has the
    role none; the address, the numbers, the link state and the failure
    flags play no part. *)
Theorem DecodeNodeInfos_line_GetRole
    (line v0 v1 v2 v3 v4 v5 v6 v7 : string) (slots : list string) :
  strings.Split line space = v0 :: v1 :: v2 :: v3 :: v4 :: v5 :: v6 :: v7 :: slots →
  ∃ node,
    (DecodeNodeInfos_line SplitHostPort ParseInt DecodeSlotRange ([], []) line).1 = [node]
    ∧ ((∃ val, val ∈ strings.Split v2 comma ∧ val ∈ ["master"; "slave"]) →
         Some (GetRole node)
           = last (filter (λ val, val ∈ ["master"; "slave"]) (strings.Split v2 comma)))
    ∧ ((∀ val, val ∈ strings.Split v2 comma → val ∉ ["master"; "slave"]) →
         (v3 ≠ "-" → v3 ≠ "" → GetRole node = "slave")
         ∧ (v3 = "-" ∨ v3 = "" →
              (GetRole node = "master" ↔
                 ∃ slot, slot ∈ slots ∧ (DecodeSlotRange slot).2 = None
                         ∧ (DecodeSlotRange slot).1.1.1 ≠ [])
              ∧ (GetRole node = "master" ∨ GetRole node = "none"))).
Proof.
  intros Hline. eexists. split.
  { by rewrite (DecodeNodeInfos_line_decoded SplitHostPort ParseInt DecodeSlotRange
                  line v0 v1 v2 v3 v4 v5 v6 v7 slots Hline). }
  rewrite decoded_node_role. unfold role_of_flags.
  change RoleFlags with ["master"; "slave"].
  destruct (last (filter (λ val, val ∈ ["master"; "slave"]) (strings.Split v2 comma)))
    as [role|] eqn:E; simpl.
  - pose proof E as Hin.
    apply last_Some_elem_of, list_elem_of_filter in Hin as [Hrole Hin].
    split.
    + intros _. rewrite decide_False; [done|].
      intros ->. by apply (bool_decide_pack _) in Hrole.
    + intros Hnone. by destruct (Hnone role Hin).
  - apply last_None in E. split.
    + intros (val & Hin & Hval).
      assert (val ∈ filter (λ val, val ∈ ["master"; "slave"]) (strings.Split v2 comma))
        as Hfil by (by apply list_elem_of_filter).
      rewrite E in Hfil. by apply elem_of_nil in Hfil.
    + intros _. split.
      * intros Hdash Hempty. rewrite decide_False; [done|]. by intros [?|?].
      * intros Hv3. rewrite decide_True by done.
        assert (slots ≫= slots_of DecodeSlotRange ≠ [] ↔
                ∃ slot, slot ∈ slots ∧ (DecodeSlotRange slot).2 = None
                        ∧ (DecodeSlotRange slot).1.1.1 ≠ []) as Hslots.
        { split.
          - intros Hne. destruct (slots ≫= slots_of DecodeSlotRange) as [|s rest] eqn:Es;
              [done|].
            assert (s ∈ slots ≫= slots_of DecodeSlotRange) as Hs
              by (rewrite Es; apply list_elem_of_here).
            apply list_elem_of_bind in Hs as (slot & Hs & Hslot).
            exists slot. split; [done|]. revert Hs. unfold slots_of.
            destruct (DecodeSlotRange slot) as [[[sl im] mi] [e|]]; simpl.
            + by intros ?%elem_of_nil.
            + split; [done|]. intros ->. by apply elem_of_nil in Hs.
          - intros (slot & Hslot & Herr & Hne) Hnil.
            destruct ((DecodeSlotRange slot).1.1.1) as [|s rest] eqn:Es; [done|].
            assert (s ∈ slots ≫= slots_of DecodeSlotRange) as Hs.
            { apply list_elem_of_bind. exists slot. split; [|done].
              unfold slots_of. revert Herr Es.
              destruct (DecodeSlotRange slot) as [[[sl im] mi] [e|]]; simpl; [done|].
              intros _ ->. apply list_elem_of_here. }
            rewrite Hnil in Hs. by apply elem_of_nil in Hs. }
        destruct (decide (slots ≫= slots_of DecodeSlotRange = [])) as [Hnil|Hne].
        -- split; [|by right]. split; [done|]. intros H%Hslots. done.
        -- split; [|by left]. split; [|done]. intros _. by apply Hslots.
Qed.

End DecodedRole.

(** A line without role flag and without referent, whose only slot token
    is accepted: a master by its slots. *)
Lemma DecodeNodeInfos_line_GetRole_witness :
  ∃ node,
    (DecodeNodeInfos_line net.SplitHostPort strconv.ParseInt slots.DecodeSlotRange ([], [])
       "abcd 1.2.3.4:6379@16379 myself - 0 0 4 connected 0-2").1 = [node]
    ∧ GetRole node = "master".
Proof.
  destruct (DecodeNodeInfos_line_GetRole net.SplitHostPort strconv.ParseInt
              slots.DecodeSlotRange
              "abcd 1.2.3.4:6379@16379 myself - 0 0 4 connected 0-2"
              "abcd" "1.2.3.4:6379@16379" "myself" "-" "0" "0" "4" "connected" ["0-2"])
    as (node & Hnode & _ & Hrole); [by vm_compute|].
  exists node. split; [done|].
  destruct Hrole as [_ Hmaster].
  { intros val Hin Hval.
    assert (strings.Split "myself" comma = ["myself"]) as Hsplit by by vm_compute.
    rewrite Hsplit in Hin. apply list_elem_of_singleton in Hin as ->.
    by apply (bool_decide_pack _) in Hval. }
  destruct (Hmaster (or_introl eq_refl)) as [Hiff _].
  apply Hiff. exists "0-2". split; [apply list_elem_of_here|].
  split; by vm_compute.
Defined.
